(** * PowerControlScheduler: FCFS scheduling with load balancing and power control

    A shallow embedding of [src/power_control/powerControlScheduler.py].

    Conventions of the embedding.
    - Python [int] is [Z]; node ids (Batsim machine ids) are [nat].
    - [self.bs.time()], the energy readings and the timer constants are
      Python floats: IEEE-754 binary64, here Rocq's primitive [float].
    - A [ProcSet] is a finite set of node ids, [gset nat].
    - A job object is a record; writing [job.allocation] yields the updated
      record, which is the value stored in the running list and handed to
      the engine.  Python compares job objects by identity; the engine gives
      every job object its own id, so identity is equality of [job_id].
    - [job.allocation] is [None] until a pass places the job.  The record of
      a job that no pass has placed holds the empty set there; the field is
      read by [onJobCompletion] only, which is embedded for the jobs whose
      allocation has been assigned (the engine completes the jobs it was told
      to execute).  On [None] Python raises [TypeError] at
      [for node in job.allocation].
    - A method either returns or raises; both outcomes carry the state of the
      scheduler object at that point.
    - Every call the scheduler makes on the engine ([self.bs]) or on the
      power controller is appended to the ghost field [calls], oldest first.
      [print] is not modelled.
    - The scheduler is modelled from the return of [onSimulationBegins] on,
      when [power_controller] has been set. *)

From Stdlib Require Import PrimFloat.
From stdpp Require Import gmap list sorting strings.

Open Scope Z_scope.

(** ** Jobs, engine and controller calls *)

Definition node := nat.

Record Job := mkJob {
  job_id : nat;
  requested_resources : Z;
  allocation : gset node
}.

(** [job.allocation = ProcSet( * selected_nodes)] *)
Definition set_allocation (job : Job) (selected_nodes : list node) : Job :=
  {| job_id := job_id job;
     requested_resources := requested_resources job;
     allocation := list_to_set selected_nodes |}.

Inductive Call :=
  | bs_reject_jobs (jobs : list Job)
  | bs_execute_jobs (jobs : list Job)
  | bs_wake_me_up_at (t : float)
  | pc_GetAvailableNodes
  | pc_GetNodeJobCount (n : node)
  | pc_AddJobToNode (n : node)
  | pc_RemoveJobFromNode (n : node)
  | pc_ExecutePowerActions
  | pc_RecordSystemState (t : float) (running waiting : list Job) (power : float)
  | pc_HandleStateTransitionComplete (machine : node) (new_pstate : Z).

Inductive Exn :=
  | AssertionError (msg : string)
  | ValueError (msg : string)
  | NotImplementedError.

Inductive outcome (S : Type) :=
  | Returns (s : S)
  | Raises (e : Exn) (s : S).
Arguments Returns {S} s.
Arguments Raises {S} e s.

(** ** The power controller interface

    [powerControl.NodePowerController] is imported by the scheduler but its
    module is not part of the sources; the scheduler is therefore embedded
    over the operations it calls on the controller. *)

Class PowerController (PC : Type) := {
  GetAvailableNodes : PC → list node;
  GetNodeJobCount : PC → node → Z;
  AddJobToNode : PC → node → PC;
  RemoveJobFromNode : PC → node → PC;
  ExecutePowerActions : PC → PC;
  HandleStateTransitionComplete : PC → node → Z → PC;
  RecordSystemState : PC → float → list Job → list Job → float → PC
}.

(** ** Python built-ins used by the scheduler *)

(** Comparison of the sort keys [(node_loads[n], n)]: Python orders tuples
    lexicographically. *)
Definition key_le (a b : Z * node) : Prop :=
  a.1 < b.1 ∨ (a.1 = b.1 ∧ (a.2 ≤ b.2)%nat).

Global Instance key_le_dec a b : Decision (key_le a b).
Proof. unfold key_le. apply _. Defined.

(** [sorted(l, key=key)] *)
Definition sorted {A} (key : A → Z * node) (l : list A) : list A :=
  merge_sort (λ x y, key_le (key x) (key y)) l.

(** [l[:k]]: a negative [k] counts from the end of the list. *)
Definition slice_to {A} (l : list A) (k : Z) : list A :=
  if bool_decide (0 ≤ k) then take (Z.to_nat k) l
  else take (length l - Z.to_nat (- k)) l.

(** [job in jobs] and [jobs.remove(job)]: object identity, first occurrence *)
Definition job_in (job : Job) (jobs : list Job) : bool :=
  bool_decide (job_id job ∈ map job_id jobs).

Fixpoint list_remove_job (job : Job) (jobs : list Job) : list Job :=
  match jobs with
  | [] => []
  | j :: jobs' =>
      if bool_decide (job_id j = job_id job) then jobs'
      else j :: list_remove_job job jobs'
  end.

(** [len(l)] *)
Definition len {A} (l : list A) : Z := Z.of_nat (length l).

(** Truth value of a list: [if l], [not l] *)
Definition truthy {A} (l : list A) : bool :=
  match l with [] => false | _ => true end.

(** [for node in procset]: a ProcSet iterates in ascending order. *)
Definition procset_iter (X : gset node) : list node :=
  merge_sort (≤)%nat (elements X).

(** ** The scheduler object *)

Record PowerControlScheduler (PC : Type) := mkScheduler {
  bs_time : float;                (* self.bs.time() *)
  bs_nb_resources : Z;            (* self.bs.nb_resources *)
  power_controller : PC;
  power_check_interval : float;
  record_interval : float;
  last_power_check : float;
  last_energy : float;
  last_energy_time : float;
  current_power : float;
  waiting_jobs : list Job;
  running_jobs : list Job;
  simulation_started : bool;
  calls : list Call
}.
Arguments mkScheduler {PC}.
Arguments bs_time {PC}.
Arguments bs_nb_resources {PC}.
Arguments power_controller {PC}.
Arguments power_check_interval {PC}.
Arguments record_interval {PC}.
Arguments last_power_check {PC}.
Arguments last_energy {PC}.
Arguments last_energy_time {PC}.
Arguments current_power {PC}.
Arguments waiting_jobs {PC}.
Arguments running_jobs {PC}.
Arguments simulation_started {PC}.
Arguments calls {PC}.

Section Setters.
Context {PC : Type}.
Implicit Type s : PowerControlScheduler PC.

Definition set_bs_time (t : float) s :=
  mkScheduler t (bs_nb_resources s) (power_controller s)
    (power_check_interval s) (record_interval s) (last_power_check s)
    (last_energy s) (last_energy_time s) (current_power s)
    (waiting_jobs s) (running_jobs s) (simulation_started s) (calls s).

Definition set_power_controller (pc : PC) s :=
  mkScheduler (bs_time s) (bs_nb_resources s) pc
    (power_check_interval s) (record_interval s) (last_power_check s)
    (last_energy s) (last_energy_time s) (current_power s)
    (waiting_jobs s) (running_jobs s) (simulation_started s) (calls s).

Definition set_last_power_check (t : float) s :=
  mkScheduler (bs_time s) (bs_nb_resources s) (power_controller s)
    (power_check_interval s) (record_interval s) t
    (last_energy s) (last_energy_time s) (current_power s)
    (waiting_jobs s) (running_jobs s) (simulation_started s) (calls s).

Definition set_last_energy (e : float) s :=
  mkScheduler (bs_time s) (bs_nb_resources s) (power_controller s)
    (power_check_interval s) (record_interval s) (last_power_check s)
    e (last_energy_time s) (current_power s)
    (waiting_jobs s) (running_jobs s) (simulation_started s) (calls s).

Definition set_last_energy_time (t : float) s :=
  mkScheduler (bs_time s) (bs_nb_resources s) (power_controller s)
    (power_check_interval s) (record_interval s) (last_power_check s)
    (last_energy s) t (current_power s)
    (waiting_jobs s) (running_jobs s) (simulation_started s) (calls s).

Definition set_current_power (p : float) s :=
  mkScheduler (bs_time s) (bs_nb_resources s) (power_controller s)
    (power_check_interval s) (record_interval s) (last_power_check s)
    (last_energy s) (last_energy_time s) p
    (waiting_jobs s) (running_jobs s) (simulation_started s) (calls s).

Definition set_waiting_jobs (jobs : list Job) s :=
  mkScheduler (bs_time s) (bs_nb_resources s) (power_controller s)
    (power_check_interval s) (record_interval s) (last_power_check s)
    (last_energy s) (last_energy_time s) (current_power s)
    jobs (running_jobs s) (simulation_started s) (calls s).

Definition set_running_jobs (jobs : list Job) s :=
  mkScheduler (bs_time s) (bs_nb_resources s) (power_controller s)
    (power_check_interval s) (record_interval s) (last_power_check s)
    (last_energy s) (last_energy_time s) (current_power s)
    (waiting_jobs s) jobs (simulation_started s) (calls s).

Definition set_simulation_started (b : bool) s :=
  mkScheduler (bs_time s) (bs_nb_resources s) (power_controller s)
    (power_check_interval s) (record_interval s) (last_power_check s)
    (last_energy s) (last_energy_time s) (current_power s)
    (waiting_jobs s) (running_jobs s) b (calls s).

(** Record one outbound call. *)
Definition add_call (c : Call) s :=
  mkScheduler (bs_time s) (bs_nb_resources s) (power_controller s)
    (power_check_interval s) (record_interval s) (last_power_check s)
    (last_energy s) (last_energy_time s) (current_power s)
    (waiting_jobs s) (running_jobs s) (simulation_started s) (calls s ++ [c]).

(** A call of a state-changing method of the power controller. *)
Definition call_pc (f : PC → PC) (c : Call) s :=
  add_call c (set_power_controller (f (power_controller s)) s).
End Setters.

(** ** The scheduling pass *)

(** The scheduler object together with the local variables of
    [try_schedule_jobs] while its loop runs. *)
Record Pass (PC : Type) := mkPass {
  self : PowerControlScheduler PC;
  node_loads : gmap node Z;
  remaining_nodes : list node;
  jobs_to_execute : list Job
}.
Arguments mkPass {PC}.
Arguments self {PC}.
Arguments node_loads {PC}.
Arguments remaining_nodes {PC}.
Arguments jobs_to_execute {PC}.

(** The events that the engine delivers.  A kill report carries the jobs
    that were killed, at least one: [job :: jobs]. *)
Inductive Event :=
| RequestedCall
| JobSubmission (job : Job)
| JobCompletion (job : Job)
| JobsKilled (job : Job) (jobs : list Job)
| JobMessage (timestamp : float) (job : Job) (message : string)
| MachinePStateChanged (machines : list node) (new_pstate : Z)
| ReportEnergyConsumed (consumed_energy : float)
| Deadlock
| SimulationEnds.

Section Scheduler.
Context {PC : Type} `{PowerController PC}.
Implicit Type s : PowerControlScheduler PC.

(** [key=lambda n: (node_loads[n], n)] *)
Definition load_key (loads : gmap node Z) (n : node) : Z * node :=
  (loads !!! n, n).

(** The nodes chosen for a job that asks for [k] nodes: the remaining pool
    sorted by load, then by node id, cut after [k] nodes. *)
Definition select_nodes (loads : gmap node Z) (remaining : list node) (k : Z)
    : list node :=
  let sorted_nodes := sorted (load_key loads) remaining in
  slice_to sorted_nodes k.

(** One turn of [for node in selected_nodes]: notify the controller and
    bump the local load. *)
Definition add_job_to_node (st : PowerControlScheduler PC * gmap node Z)
    (n : node) : PowerControlScheduler PC * gmap node Z :=
  (call_pc (λ pc, AddJobToNode pc n) (pc_AddJobToNode n) st.1,
   <[n := st.2 !!! n + 1]> st.2).

(** One turn of [for job in waiting_jobs_copy]. *)
Definition schedule_job (p : Pass PC) (job : Job) : Pass PC :=
  if bool_decide (requested_resources job ≤ len (remaining_nodes p)) then
    let selected_nodes :=
      select_nodes (node_loads p) (remaining_nodes p) (requested_resources job) in
    let job := set_allocation job selected_nodes in
    let st := foldl add_job_to_node (self p, node_loads p) selected_nodes in
    mkPass (set_running_jobs (running_jobs st.1 ++ [job]) st.1)
      st.2
      (filter (λ n, n ∉ selected_nodes) (remaining_nodes p))
      (jobs_to_execute p ++ [job])
  else
    mkPass (set_waiting_jobs (waiting_jobs (self p) ++ [job]) (self p))
      (node_loads p) (remaining_nodes p) (jobs_to_execute p).

(** The state in which the loop of [try_schedule_jobs] starts. *)
Definition start_pass s (available_nodes : list node) : Pass PC :=
  let pc := power_controller s in
  let loads :=
    foldl (λ m n, <[n := GetNodeJobCount pc n]> m) ∅ available_nodes in
  let s := foldl (λ s n, add_call (pc_GetNodeJobCount n) s) s available_nodes in
  mkPass (set_waiting_jobs [] s) loads available_nodes [].

Definition try_schedule_jobs s : outcome (PowerControlScheduler PC) :=
  if negb (truthy (waiting_jobs s)) then Returns s
  else
    let available_nodes := GetAvailableNodes (power_controller s) in
    let s1 := add_call pc_GetAvailableNodes s in
    if negb (truthy available_nodes) then
      Raises (AssertionError "No available nodes") s1
    else
      let p := foldl schedule_job (start_pass s1 available_nodes) (waiting_jobs s1) in
      if truthy (jobs_to_execute p) then
        Returns (add_call (bs_execute_jobs (jobs_to_execute p)) (self p))
      else Returns (self p).

(** ** Event handlers *)

Definition schedule_next_record s :=
  let next_check := (bs_time s + record_interval s)%float in
  add_call (bs_wake_me_up_at next_check) s.

Definition onRequestedCall s : outcome (PowerControlScheduler PC) :=
  let current_time := bs_time s in
  let s1 :=
    if PrimFloat.leb (last_power_check s + power_check_interval s) current_time
    then set_last_power_check current_time
           (call_pc ExecutePowerActions pc_ExecutePowerActions s)
    else s in
  let s2 :=
    call_pc
      (λ pc, RecordSystemState pc current_time (running_jobs s1)
               (waiting_jobs s1) (current_power s1))
      (pc_RecordSystemState current_time (running_jobs s1) (waiting_jobs s1)
         (current_power s1)) s1 in
  if simulation_started s2
     && negb (truthy (running_jobs s2) || truthy (waiting_jobs s2))
  then Returns s2
  else Returns (schedule_next_record s2).

Definition onJobSubmission s (job : Job) : outcome (PowerControlScheduler PC) :=
  let s1 := set_simulation_started true s in
  if bool_decide (bs_nb_resources s1 < requested_resources job) then
    Returns (add_call (bs_reject_jobs [job]) s1)
  else
    try_schedule_jobs (set_waiting_jobs (waiting_jobs s1 ++ [job]) s1).

Definition remove_job_from_node s (n : node) :=
  call_pc (λ pc, RemoveJobFromNode pc n) (pc_RemoveJobFromNode n) s.

(** [job.allocation] is the [ProcSet] that a pass has assigned. *)
Definition onJobCompletion s (job : Job) : outcome (PowerControlScheduler PC) :=
  let s1 :=
    if job_in job (running_jobs s)
    then set_running_jobs (list_remove_job job (running_jobs s)) s
    else s in
  let s2 := foldl remove_job_from_node s1 (procset_iter (allocation job)) in
  try_schedule_jobs s2.


(** [onJobsKilled(jobs)] is the callback for killed jobs.  The class does not
    define it and inherits it from [BatsimScheduler], whose body is
    [raise NotImplementedError()]. *)
Definition onJobsKilled s (jobs : list Job) : outcome (PowerControlScheduler PC) :=
  Raises NotImplementedError s.

Definition onJobMessage s (timestamp : float) (job : Job) (message : string)
    : outcome (PowerControlScheduler PC) :=
  Returns s.

Definition onMachinePStateChanged s (machines : list node) (new_pstate : Z)
    : outcome (PowerControlScheduler PC) :=
  Returns
    (foldl
       (λ s machine,
          call_pc (λ pc, HandleStateTransitionComplete pc machine new_pstate)
            (pc_HandleStateTransitionComplete machine new_pstate) s)
       s machines).

Definition onReportEnergyConsumed s (consumed_energy : float)
    : outcome (PowerControlScheduler PC) :=
  let current_time := bs_time s in
  let s1 :=
    if PrimFloat.ltb 0 (last_energy_time s) then
      let time_diff := (current_time - last_energy_time s)%float in
      let energy_diff := (consumed_energy - last_energy s)%float in
      if PrimFloat.ltb 0 time_diff
      then set_current_power (energy_diff / time_diff)%float s
      else s
    else s in
  Returns (set_last_energy_time current_time (set_last_energy consumed_energy s1)).

Definition onDeadlock s : outcome (PowerControlScheduler PC) :=
  Raises (ValueError "Batsim has reached a deadlock") s.

Definition onSimulationEnds s : outcome (PowerControlScheduler PC) :=
  Returns s.

(** The object as [__init__] and [onSimulationBegins] leave it, for an
    engine at time [t0] with [nb] resources and the controller [pc] that
    [NodePowerController(batsim_scheduler=self.bs)] returned. *)
Definition init (t0 : float) (nb : Z) (pc : PC) : PowerControlScheduler PC :=
  {| bs_time := t0; bs_nb_resources := nb; power_controller := pc;
     power_check_interval := 1800; record_interval := 60;
     last_power_check := t0;
     last_energy := 0; last_energy_time := 0; current_power := 0;
     waiting_jobs := []; running_jobs := [];
     simulation_started := false; calls := [] |}.

(** ** Events delivered by the engine *)

(** The engine sets its clock to [now] and calls the handler of the event. *)
Definition handle (now : float) (ev : Event) s : outcome (PowerControlScheduler PC) :=
  let s := set_bs_time now s in
  match ev with
  | RequestedCall => onRequestedCall s
  | JobSubmission job => onJobSubmission s job
  | JobCompletion job => onJobCompletion s job
  | JobsKilled job jobs => onJobsKilled s (job :: jobs)
  | JobMessage timestamp job message => onJobMessage s timestamp job message
  | MachinePStateChanged machines new_pstate =>
      onMachinePStateChanged s machines new_pstate
  | ReportEnergyConsumed consumed_energy => onReportEnergyConsumed s consumed_energy
  | Deadlock => onDeadlock s
  | SimulationEnds => onSimulationEnds s
  end.

(** Events are handled one at a time, in delivery order; an exception ends
    the run. *)
Fixpoint run (evs : list (float * Event)) s : outcome (PowerControlScheduler PC) :=
  match evs with
  | [] => Returns s
  | (now, ev) :: evs' =>
      match handle now ev s with
      | Returns s' => run evs' s'
      | Raises e s' => Raises e s'
      end
  end.
End Scheduler.

(** ** The node power controller *)

Inductive PowerState :=
  | COMPUTING | IDLE
  | SWITCHING_TO_SLEEP | SLEEPING | WAKING_FROM_SLEEP
  | POWERING_OFF | POWERED_OFF | POWERING_ON.

Global Instance PowerState_eq_dec : EqDecision PowerState.
Proof. solve_decision. Defined.

Record Node := mkNode { state : PowerState; job_count : Z }.

Record SnapshotRow := mkRow {
  datetime : float;
  row_running_jobs : Z;
  row_waiting_jobs : Z;
  nb_in_state : PowerState → Z
}.

(** Modelled from the spec: the class [NodePowerController] of the module
    [powerControl], which the scheduler imports and which is missing from the
    sources.  The node registry is a list indexed by node id; the controller
    also keeps the snapshot rows it has emitted. *)
Record NodePowerController := mkController {
  nodes : list Node;
  records : list SnapshotRow
}.

Definition is_available (nd : Node) : bool :=
  match state nd with COMPUTING | IDLE => true | _ => false end.

(** Modelled from the spec: [GetAvailableNodes] of the missing controller,
    "returns nodes in COMPUTING or IDLE only". *)
Definition spec_GetAvailableNodes (pc : NodePowerController) : list node :=
  filter (λ n, from_option is_available false (nodes pc !! n) = true)
    (seq 0 (length (nodes pc))).

(** Modelled from the spec: [GetNodeJobCount] of the missing controller,
    "returns current job_count". *)
Definition spec_GetNodeJobCount (pc : NodePowerController) (n : node) : Z :=
  from_option job_count 0 (nodes pc !! n).

Definition add_job (nd : Node) : Node :=
  match state nd with
  | IDLE | COMPUTING => mkNode COMPUTING (job_count nd + 1)
  | _ => nd
  end.

Definition remove_job (nd : Node) : Node :=
  let c := job_count nd - 1 in
  match state nd with
  | COMPUTING => mkNode (if bool_decide (c = 0) then IDLE else COMPUTING) c
  | st => mkNode st c
  end.

(** Modelled from the spec: [AddJobToNode] of the missing controller,
    "transitions IDLE -> COMPUTING (or increments load if already
    computing)"; the spec leaves the other states open, where the node is
    left as it is. *)
Definition spec_AddJobToNode (pc : NodePowerController) (n : node) :=
  mkController (alter add_job n (nodes pc)) (records pc).

(** Modelled from the spec: [RemoveJobFromNode] of the missing controller,
    "decrements load and transitions COMPUTING -> IDLE when load reaches
    zero". *)
Definition spec_RemoveJobFromNode (pc : NodePowerController) (n : node) :=
  mkController (alter remove_job n (nodes pc)) (records pc).

(** Modelled from the spec: [ExecutePowerActions] of the missing controller.
    The policy is "a pluggable policy ... not part of this core's contract";
    the policy that requests no transition is taken. *)
Definition spec_ExecutePowerActions (pc : NodePowerController) := pc.

(** The state a pending transition leads to. *)
Definition pending_target (st : PowerState) : option PowerState :=
  match st with
  | SWITCHING_TO_SLEEP => Some SLEEPING
  | WAKING_FROM_SLEEP => Some IDLE
  | POWERING_OFF => Some POWERED_OFF
  | POWERING_ON => Some IDLE
  | _ => None
  end.

(** The spec does not give the engine's numbering of power states; the
    settled states are numbered in the order in which the spec lists them. *)
Definition state_of_pstate (p : Z) : option PowerState :=
  match p with
  | 0 => Some IDLE
  | 1 => Some SLEEPING
  | 2 => Some POWERED_OFF
  | _ => None
  end.

Definition complete_transition (new_pstate : Z) (nd : Node) : Node :=
  match pending_target (state nd), state_of_pstate new_pstate with
  | Some tgt, Some st =>
      if bool_decide (tgt = st) then mkNode st (job_count nd) else nd
  | _, _ => nd
  end.

(** Modelled from the spec: [HandleStateTransitionComplete] of the missing
    controller, "resolves a pending transition; fails (logged, non-fatal) if
    the node was not in a matching pending state". *)
Definition spec_HandleStateTransitionComplete (pc : NodePowerController)
    (n : node) (new_pstate : Z) :=
  mkController (alter (complete_transition new_pstate) n (nodes pc)) (records pc).

Definition count_in_state (pc : NodePowerController) (st : PowerState) : Z :=
  len (filter (λ nd, state nd = st) (nodes pc)).

(** Modelled from the spec: [RecordSystemState] of the missing controller,
    "emits one snapshot row aggregating counts of nodes per state, job-queue
    depths, and instantaneous power". *)
Definition spec_RecordSystemState (pc : NodePowerController) (t : float)
    (running waiting : list Job) (power : float) :=
  mkController (nodes pc)
    (records pc ++ [mkRow t (len running) (len waiting) (count_in_state pc)]).

Global Instance spec_controller : PowerController NodePowerController := {
  GetAvailableNodes := spec_GetAvailableNodes;
  GetNodeJobCount := spec_GetNodeJobCount;
  AddJobToNode := spec_AddJobToNode;
  RemoveJobFromNode := spec_RemoveJobFromNode;
  ExecutePowerActions := spec_ExecutePowerActions;
  HandleStateTransitionComplete := spec_HandleStateTransitionComplete;
  RecordSystemState := spec_RecordSystemState
}.

(** A cluster of [n] nodes, all idle and without jobs. *)
Definition idle_cluster (n : nat) : NodePowerController :=
  mkController (replicate n (mkNode IDLE 0)) [].

(** ** Time features of the predictor

    From [src/power_control/predictor/data_processor.py]: the method
    [get_day_period] and the loop of [_create_time_features] that counts, for
    the hours of a time range, the minutes falling in each period of the day
    and takes the most frequent period.  The hours are the integers that
    [pd.date_range(...).hour] yields.  The counters are the entries of
    [np.zeros(6)]; they only ever hold whole numbers and are integers here. *)

Definition get_day_period (hour : Z) : Z :=
  if bool_decide (5 ≤ hour < 9) then 0
  else if bool_decide (9 ≤ hour < 12) then 1
  else if bool_decide (12 ≤ hour < 14) then 2
  else if bool_decide (14 ≤ hour < 18) then 3
  else if bool_decide (18 ≤ hour < 24) then 4
  else 5.

(** [a[i] += 1] on a one-dimensional array: a negative index counts from the
    end, an index out of bounds raises [IndexError] (here [None]). *)
Definition np_increment (a : list Z) (i : Z) : option (list Z) :=
  if bool_decide (0 ≤ i < len a) then Some (alter Z.succ (Z.to_nat i) a)
  else if bool_decide (- len a ≤ i < 0) then
    Some (alter Z.succ (Z.to_nat (len a + i)) a)
  else None.

(** [np.argmax(a)]: the first index at which the maximum is found; an empty
    array raises (here [None]). *)
Fixpoint argmax_from (best : nat) (best_val : Z) (i : nat) (a : list Z) : nat :=
  match a with
  | [] => best
  | x :: a' =>
      if bool_decide (best_val < x) then argmax_from i x (S i) a'
      else argmax_from best best_val (S i) a'
  end.

Definition np_argmax (a : list Z) : option nat :=
  match a with
  | [] => None
  | x :: a' => Some (argmax_from 0 x 1 a')
  end.

(** [period_counts = np.zeros(6)] and the loop [for hour in hours]. *)
Definition period_counts (hours : list Z) : option (list Z) :=
  foldl (λ acc hour, counts ← acc; np_increment counts (get_day_period hour))
    (Some (replicate 6 0)) hours.

(** [main_period = np.argmax(period_counts)] *)
Definition main_period (hours : list Z) : option nat :=
  counts ← period_counts hours; np_argmax counts.

(** ** The scenarios of the specification *)

Definition job_A := mkJob 1 2 ∅.
Definition job_B := mkJob 2 3 ∅.
Definition job_C := mkJob 3 1 ∅.
Definition job_D := mkJob 4 10 ∅.

(** A list of jobs as it is observed: the id and the allocation of each. *)
Definition view (jobs : list Job) : list (nat * list node) :=
  map (λ j, (job_id j, procset_iter (allocation j))) jobs.

(** The scheduler object when a method has returned or raised. *)
Definition final {S} (o : outcome S) : S :=
  match o with Returns s => s | Raises _ s => s end.

Definition scenario_AB :=
  final (run [(0%float, JobSubmission job_A); (1%float, JobSubmission job_B)]
           (init 0 4 (idle_cluster 4))).

(** A cluster of [n] nodes, all asleep. *)
Definition sleeping_cluster (n : nat) : NodePowerController :=
  mkController (replicate n (mkNode SLEEPING 0)) [].

(** Job A as the scheduler leaves it once placed on nodes 0 and 1. *)
Definition job_A_placed : Job := set_allocation job_A [0; 1]%nat.

(** A pass over the queue A, B, C on four idle nodes. *)
Definition queue_ABC : PowerControlScheduler NodePowerController :=
  set_waiting_jobs [job_A; job_B; job_C] (init 0 4 (idle_cluster 4)).

(** The scenario of the specification: A, B and C submitted one after the
    other to four idle nodes, A still running. *)
Definition scenario_ABC :=
  final (run [(0%float, JobSubmission job_A); (1%float, JobSubmission job_B);
              (2%float, JobSubmission job_C)]
           (init 0 4 (idle_cluster 4))).

(** ** Vocabulary of the properties *)

(** The fields that only the engine and the timer and energy handlers
    change. *)
Definition settings {PC} (s : PowerControlScheduler PC) :=
  (bs_time s, bs_nb_resources s, power_check_interval s, record_interval s,
   last_power_check s, last_energy s, last_energy_time s, current_power s,
   simulation_started s).

(** The batches handed to [execute_jobs] among recorded calls. *)
Definition executed (cs : list Call) : list (list Job) :=
  omap (λ c, match c with bs_execute_jobs jobs => Some jobs | _ => None end) cs.

(** Allocations at different positions of a list of jobs do not overlap. *)
Definition pairwise_disjoint (jobs : list Job) : Prop :=
  ∀ i j ji jj, i ≠ j → jobs !! i = Some ji → jobs !! j = Some jj →
    allocation ji ## allocation jj.

(** The test of the loop, [job.requested_resources <= len(remaining_nodes)]. *)
Definition fits {PC} (p : Pass PC) (job : Job) : Prop :=
  requested_resources job ≤ len (remaining_nodes p).

(** The [selected_nodes] of a job placed at the state [p] of the loop. *)
Definition chosen {PC} (p : Pass PC) (job : Job) : list node :=
  select_nodes (node_loads p) (remaining_nodes p) (requested_resources job).

(** The loop as [try_schedule_jobs] runs it on the scheduler [s]. *)
Definition the_pass {PC} `{PowerController PC}
    (s : PowerControlScheduler PC) : Pass PC :=
  let s1 := add_call pc_GetAvailableNodes s in
  foldl schedule_job
    (start_pass s1 (GetAvailableNodes (power_controller s))) (waiting_jobs s).

(** The loop of the pass on [s] once it has gone through the jobs [pre] at
    the head of the waiting queue. *)
Definition pass_before {PC} `{PowerController PC}
    (s : PowerControlScheduler PC) (pre : list Job) : Pass PC :=
  foldl schedule_job
    (start_pass (add_call pc_GetAvailableNodes s)
       (GetAvailableNodes (power_controller s))) pre.

(** The invariant of the loop over the waiting queue: the pool and the
    allocations made so far lie within the nodes [avail] the pass started
    with, no allocated node is still in the pool, and the allocations made
    so far do not overlap. *)
Definition pass_ok {PC} (avail : gset node) (p : Pass PC) : Prop :=
  (∀ n, n ∈ remaining_nodes p → n ∈ avail) ∧
  (∀ j, j ∈ jobs_to_execute p →
     allocation j ⊆ avail ∧ ∀ n, n ∈ allocation j → n ∉ remaining_nodes p) ∧
  pairwise_disjoint (jobs_to_execute p).

(** One record of everything a returning pass guarantees; [placed] is the
    batch of the pass. *)
Definition pass_effect {PC} `{PowerController PC}
    (s s' : PowerControlScheduler PC) (placed : list Job) : Prop :=
  settings s' = settings s ∧
  running_jobs s' = running_jobs s ++ placed ∧
  waiting_jobs s' `sublist_of` waiting_jobs s ∧
  (length placed + length (waiting_jobs s') = length (waiting_jobs s))%nat ∧
  map job_id placed `sublist_of` map job_id (waiting_jobs s) ∧
  map requested_resources placed `sublist_of`
    map requested_resources (waiting_jobs s) ∧
  executed (calls s') =
    executed (calls s) ++ (if truthy placed then [placed] else []) ∧
  pairwise_disjoint placed ∧
  (∀ j, j ∈ placed →
     allocation j ⊆ list_to_set (GetAvailableNodes (power_controller s))).

(** What the allocation decisions of a pass read and write. *)
Definition decision {PC} (p : Pass PC) :=
  (node_loads p, remaining_nodes p, jobs_to_execute p, waiting_jobs (self p)).

(** Whether an event is a job submission. *)
Definition is_submission (ev : Event) : bool :=
  match ev with JobSubmission _ => true | _ => false end.

(** The job an event adds to the waiting queue of a cluster of [nb] nodes. *)
Definition admitted (nb : Z) (ev : Event) : list Job :=
  match ev with
  | JobSubmission job =>
      if bool_decide (nb < requested_resources job) then [] else [job]
  | _ => []
  end.

(** The state a tick leaves behind before it decides on the timer. *)
Definition recorded {PC} `{PowerController PC}
    (s : PowerControlScheduler PC) : PowerControlScheduler PC :=
  let current_time := bs_time s in
  let s1 :=
    if PrimFloat.leb (last_power_check s + power_check_interval s) current_time
    then set_last_power_check current_time
           (call_pc ExecutePowerActions pc_ExecutePowerActions s)
    else s in
  call_pc
    (λ pc, RecordSystemState pc current_time (running_jobs s1)
             (waiting_jobs s1) (current_power s1))
    (pc_RecordSystemState current_time (running_jobs s1) (waiting_jobs s1)
       (current_power s1)) s1.

(** What one handled event can do to the queues: running jobs are only
    removed or appended by a pass, waiting jobs come from the old queue and
    the admitted job, and at most one batch is handed to the engine. *)
Definition step_effect {PC} (ev : Event) (s s' : PowerControlScheduler PC) : Prop :=
  bs_nb_resources s' = bs_nb_resources s ∧
  simulation_started s' = simulation_started s || is_submission ev ∧
  ∃ base placed,
    base `sublist_of` running_jobs s ∧
    running_jobs s' = base ++ placed ∧
    waiting_jobs s' `sublist_of` waiting_jobs s ++ admitted (bs_nb_resources s) ev ∧
    map requested_resources placed `sublist_of`
      map requested_resources (waiting_jobs s ++ admitted (bs_nb_resources s) ev) ∧
    executed (calls s') =
      executed (calls s) ++ (if truthy placed then [placed] else []) ∧
    pairwise_disjoint placed.

(** Every queued or running job fits the cluster of [nb] nodes. *)
Definition capacity_ok {PC} (nb : Z) (s : PowerControlScheduler PC) : Prop :=
  bs_nb_resources s = nb ∧
  Forall (λ j, requested_resources j ≤ nb) (waiting_jobs s ++ running_jobs s).

(** Every running job was handed to the engine in some batch, and no batch
    gives a node to two of its jobs. *)
Definition batches_ok {PC} (s : PowerControlScheduler PC) : Prop :=
  (∀ j, j ∈ running_jobs s → ∃ batch, batch ∈ executed (calls s) ∧ j ∈ batch) ∧
  (∀ batch, batch ∈ executed (calls s) → pairwise_disjoint batch).

(** A job as the engine knows it: its id and the number of nodes it asks
    for. *)
Definition ident (j : Job) : nat * Z := (job_id j, requested_resources j).

(** The nodes held by the jobs of a list. *)
Definition allocated (jobs : list Job) : gset node := ⋃ (map allocation jobs).

(** A job with a non-negative request holds as many nodes as it asked
    for. *)
Definition full_allocation (j : Job) : Prop :=
  0 ≤ requested_resources j → Z.of_nat (size (allocation j)) = requested_resources j.

(** The running list once a completion event has been through the guarded
    removal. *)
Definition still_running (ev : Event) (running : list Job) : list Job :=
  match ev with
  | JobCompletion job =>
      if job_in job running then list_remove_job job running else running
  | _ => running
  end.

(** The ids of the jobs submitted in a sequence of events. *)
Definition submitted_ids (evs : list (float * Event)) : list nat :=
  omap (λ e, match e.2 with JobSubmission job => Some (job_id job) | _ => None end)
    evs.

(** The calls of the periodic loop among recorded calls: a snapshot taken at
    time [t] is [inl t], a wake-up requested for time [t] is [inr t]. *)
Definition tick_calls (cs : list Call) : list (float + float) :=
  omap (λ c, match c with
             | pc_RecordSystemState t _ _ _ => Some (inl t)
             | bs_wake_me_up_at t => Some (inr t)
             | _ => None
             end) cs.

(** The times of the recorded snapshots and of the requested wake-ups. *)
Definition snapshot_times (cs : list Call) : list float :=
  omap (λ c, match c with inl t => Some t | inr _ => None end) (tick_calls cs).

Definition wakeup_times (cs : list Call) : list float :=
  omap (λ c, match c with inr t => Some t | inl _ => None end) (tick_calls cs).

(** The times at which the events of a sequence call [onRequestedCall]. *)
Definition tick_times (evs : list (float * Event)) : list float :=
  omap (λ e, match e.2 with RequestedCall => Some e.1 | _ => None end) evs.

(** The readings of the energy reports of a sequence of events, as (time,
    energy). *)
Definition reports (evs : list (float * Event)) : list (float * float) :=
  omap (λ e, match e.2 with
             | ReportEnergyConsumed consumed_energy => Some (e.1, consumed_energy)
             | _ => None
             end) evs.

(** The fields of the energy meter. *)
Definition meter {PC} (s : PowerControlScheduler PC) :=
  (last_energy s, last_energy_time s, current_power s).

(** The number of the given hours that fall in period [k]. *)
Definition hours_in_period (k : Z) (hours : list Z) : Z :=
  len (filter (λ h, get_day_period h = k) hours).

(** * Properties *)

Example scenario_AB_test :
  view (running_jobs scenario_AB) = [(1, [0;1]); (2, [0;2;3])]%nat ∧
  view (waiting_jobs scenario_AB) = [] ∧
  map job_count (nodes (power_controller scenario_AB)) = [2;1;1;1].
Proof. vm_compute. auto. Qed.

(** ** Sorting by load and node id *)

Global Instance key_le_total : Total key_le.
Proof.
  intros [a1 a2] [b1 b2]. unfold key_le. simpl.
  lia.
Qed.

Global Instance key_le_trans : Transitive key_le.
Proof.
  intros [a1 a2] [b1 b2] [c1 c2]. unfold key_le. simpl. lia.
Qed.

Section SortFacts.
Context {A : Type} (key : A → Z * node).

Local Instance by_key_total : Total (λ x y, key_le (key x) (key y)).
Proof. intros x y. apply key_le_total. Qed.

Local Instance by_key_trans : Transitive (λ x y, key_le (key x) (key y)).
Proof. intros x y z. apply key_le_trans. Qed.

Lemma sorted_Permutation (l : list A) : sorted key l ≡ₚ l.
Proof. apply merge_sort_Permutation. Qed.

Lemma sorted_StronglySorted (l : list A) :
  StronglySorted (λ x y, key_le (key x) (key y)) (sorted key l).
Proof. apply StronglySorted_merge_sort; apply _. Qed.

Lemma sorted_elem_of (l : list A) x : x ∈ sorted key l ↔ x ∈ l.
Proof. by rewrite sorted_Permutation. Qed.

Lemma sorted_length (l : list A) : length (sorted key l) = length l.
Proof. by rewrite sorted_Permutation. Qed.
End SortFacts.

Lemma slice_to_prefix {A} (l : list A) (k : Z) : ∃ n, slice_to l k = take n l.
Proof. unfold slice_to. case_bool_decide; eauto. Qed.

Lemma slice_to_nonneg {A} (l : list A) (k : Z) :
  0 ≤ k → slice_to l k = take (Z.to_nat k) l.
Proof. intros. unfold slice_to. by rewrite bool_decide_true. Qed.

Lemma slice_to_elem_of {A} (l : list A) (k : Z) x : x ∈ slice_to l k → x ∈ l.
Proof.
  destruct (slice_to_prefix l k) as [n ->]. apply subseteq_take.
Qed.

Lemma select_nodes_elem_of loads remaining k n :
  n ∈ select_nodes loads remaining k → n ∈ remaining.
Proof.
  unfold select_nodes. intros Hn%slice_to_elem_of.
  by apply sorted_elem_of in Hn.
Qed.

(** A node that sorts strictly before a chosen node is chosen as well. *)
Lemma select_nodes_lower loads remaining k a b :
  a ∈ remaining → b ∈ select_nodes loads remaining k →
  ¬ key_le (load_key loads b) (load_key loads a) →
  a ∈ select_nodes loads remaining k.
Proof.
  unfold select_nodes. intros Ha Hb Hlt.
  destruct (slice_to_prefix (sorted (load_key loads) remaining) k) as [n Hn].
  rewrite Hn in *.
  pose proof (sorted_StronglySorted (load_key loads) remaining) as Hs.
  apply (sorted_elem_of (load_key loads)) in Ha.
  rewrite <- (take_drop n (sorted (load_key loads) remaining)) in Ha, Hs.
  apply elem_of_app in Ha as [Ha|Ha]; [done|].
  exfalso. apply Hlt.
  eapply (StronglySorted_app_1_elem_of _ _ _ _ _ Hs Hb Ha).
Qed.

(** ** Facts about the scheduling loop *)

Section PassFacts.
Context {PC : Type} `{PowerController PC}.
Implicit Type s : PowerControlScheduler PC.
Implicit Type p : Pass PC.

Lemma settings_nb s s' :
  settings s' = settings s → bs_nb_resources s' = bs_nb_resources s.
Proof. by intros [=]. Qed.

Lemma settings_started s s' :
  settings s' = settings s → simulation_started s' = simulation_started s.
Proof. by intros [=]. Qed.

Lemma executed_app cs cs' : executed (cs ++ cs') = executed cs ++ executed cs'.
Proof. apply omap_app. Qed.

Lemma executed_AddJobToNode l : executed (map pc_AddJobToNode l) = [].
Proof. induction l; simpl; auto. Qed.

Lemma foldl_add_job_to_node st l :
  let st' := foldl add_job_to_node st l in
  settings st'.1 = settings st.1 ∧
  waiting_jobs st'.1 = waiting_jobs st.1 ∧
  running_jobs st'.1 = running_jobs st.1 ∧
  calls st'.1 = calls st.1 ++ map pc_AddJobToNode l.
Proof.
  revert st. induction l as [|n l IH]; intros st; simpl.
  - by rewrite app_nil_r.
  - destruct (IH (add_job_to_node st n)) as (-> & -> & -> & ->). simpl.
    by rewrite <- app_assoc.
Qed.

Lemma schedule_job_fits p job :
  fits p job →
  let p' := schedule_job p job in
  let job' := set_allocation job (chosen p job) in
  settings (self p') = settings (self p) ∧
  waiting_jobs (self p') = waiting_jobs (self p) ∧
  running_jobs (self p') = running_jobs (self p) ++ [job'] ∧
  jobs_to_execute p' = jobs_to_execute p ++ [job'] ∧
  remaining_nodes p' = filter (λ n, n ∉ chosen p job) (remaining_nodes p) ∧
  calls (self p') = calls (self p) ++ map pc_AddJobToNode (chosen p job).
Proof.
  intros Hfit. unfold schedule_job. rewrite bool_decide_true by done.
  cbv zeta. fold (chosen p job).
  destruct (foldl_add_job_to_node (self p, node_loads p) (chosen p job))
    as (Hs & Hw & Hr & Hc).
  simpl in *. rewrite Hr. repeat split; done.
Qed.

Lemma schedule_job_waits p job :
  ¬ fits p job →
  schedule_job p job =
    mkPass (set_waiting_jobs (waiting_jobs (self p) ++ [job]) (self p))
      (node_loads p) (remaining_nodes p) (jobs_to_execute p).
Proof. intros Hfit. unfold schedule_job. by rewrite bool_decide_false. Qed.

Lemma fits_dec p job : Decision (fits p job).
Proof. unfold fits. apply _. Defined.

(** The loop leaves the settings alone and records no [execute_jobs]. *)
Lemma pass_settings q p :
  settings (self (foldl schedule_job p q)) = settings (self p) ∧
  executed (calls (self (foldl schedule_job p q))) = executed (calls (self p)).
Proof.
  revert p. induction q as [|job q IH]; intros p; simpl; [done|].
  destruct (IH (schedule_job p job)) as [-> ->].
  destruct (fits_dec p job) as [Hfit|Hfit].
  - destruct (schedule_job_fits p job Hfit) as (-> & _ & _ & _ & _ & ->).
    by rewrite executed_app, executed_AddJobToNode, app_nil_r.
  - by rewrite schedule_job_waits.
Qed.

(** What the loop does to the three job lists: the jobs it places are
    appended, with their allocation, to the batch and to the running list;
    the others are appended, in queue order, to the waiting list. *)
Lemma pass_lists q p :
  ∃ placed kept,
    jobs_to_execute (foldl schedule_job p q) = jobs_to_execute p ++ placed ∧
    running_jobs (self (foldl schedule_job p q)) = running_jobs (self p) ++ placed ∧
    waiting_jobs (self (foldl schedule_job p q)) = waiting_jobs (self p) ++ kept ∧
    kept `sublist_of` q ∧
    map job_id placed `sublist_of` map job_id q ∧
    map requested_resources placed `sublist_of` map requested_resources q ∧
    (length placed + length kept = length q)%nat.
Proof.
  revert p. induction q as [|job q IH]; intros p; simpl.
  - exists [], []. by rewrite !app_nil_r.
  - destruct (IH (schedule_job p job))
      as (placed & kept & -> & -> & -> & Hk & Hp & Hq & Hlen).
    destruct (fits_dec p job) as [Hfit|Hfit].
    + destruct (schedule_job_fits p job Hfit) as (_ & -> & -> & -> & _).
      exists (set_allocation job (chosen p job) :: placed), kept.
      rewrite <- !app_assoc. simpl. repeat split; try done.
      * by apply sublist_cons.
      * by apply sublist_skip.
      * by apply sublist_skip.
      * lia.
    + rewrite schedule_job_waits by done. simpl.
      exists placed, (job :: kept).
      rewrite <- !app_assoc. simpl. repeat split; try done.
      * by apply sublist_skip.
      * by apply sublist_cons.
      * by apply sublist_cons.
      * lia.
Qed.

(** The pool only shrinks. *)
Lemma pass_remaining q p n :
  n ∈ remaining_nodes (foldl schedule_job p q) → n ∈ remaining_nodes p.
Proof.
  revert p. induction q as [|job q IH]; intros p; simpl; [done|].
  intros Hn%IH. destruct (fits_dec p job) as [Hfit|Hfit].
  - destruct (schedule_job_fits p job Hfit) as (_ & _ & _ & _ & Hr & _).
    rewrite Hr in Hn. by apply list_elem_of_filter in Hn as [_ ?].
  - by rewrite schedule_job_waits in Hn.
Qed.

Lemma pass_remaining_length q p :
  (length (remaining_nodes (foldl schedule_job p q)) ≤ length (remaining_nodes p))%nat.
Proof.
  revert p. induction q as [|job q IH]; intros p; simpl; [done|].
  etrans; [apply IH|]. destruct (fits_dec p job) as [Hfit|Hfit].
  - destruct (schedule_job_fits p job Hfit) as (_ & _ & _ & _ & -> & _).
    apply length_filter.
  - by rewrite schedule_job_waits.
Qed.
End PassFacts.

Lemma pairwise_disjoint_nil : pairwise_disjoint [].
Proof. intros i j ji jj _ Hi. by rewrite lookup_nil in Hi. Qed.

Lemma pairwise_disjoint_snoc jobs job :
  pairwise_disjoint jobs →
  (∀ j, j ∈ jobs → allocation j ## allocation job) →
  pairwise_disjoint (jobs ++ [job]).
Proof.
  intros Hpd Hnew i j ji jj Hij Hi Hj.
  apply lookup_snoc_Some in Hi as [[Hil Hi]|[Hil <-]];
    apply lookup_snoc_Some in Hj as [[Hjl Hj]|[Hjl <-]].
  - by apply (Hpd i j).
  - apply Hnew. by eapply list_elem_of_lookup_2.
  - symmetry. apply Hnew. by eapply list_elem_of_lookup_2.
  - lia.
Qed.

Section Disjointness.
Context {PC : Type} `{PowerController PC}.
Implicit Type s : PowerControlScheduler PC.
Implicit Type p : Pass PC.

Lemma schedule_job_ok avail p job :
  pass_ok avail p → pass_ok avail (schedule_job p job).
Proof.
  intros (Hrem & Hjobs & Hpd). destruct (fits_dec p job) as [Hfit|Hfit].
  - destruct (schedule_job_fits p job Hfit) as (_ & _ & _ & Hj & Hr & _).
    unfold pass_ok. rewrite Hj, Hr. split; [|split].
    + intros n [_ Hn]%list_elem_of_filter. by apply Hrem.
    + intros j [Hin| ->%list_elem_of_singleton]%elem_of_app.
      * destruct (Hjobs j Hin) as [Hsub Hout]. split; [done|].
        intros n Hn [_ Hn']%list_elem_of_filter. by apply (Hout n).
      * simpl. split.
        -- intros n Hn%elem_of_list_to_set. apply Hrem.
           by eapply select_nodes_elem_of.
        -- intros n Hn%elem_of_list_to_set [Hn' _]%list_elem_of_filter.
           by apply Hn'.
    + apply pairwise_disjoint_snoc; [done|].
      intros j Hin. simpl. destruct (Hjobs j Hin) as [_ Hout].
      intros n Hn Hn'%elem_of_list_to_set. apply (Hout n Hn).
      by eapply select_nodes_elem_of.
  - by rewrite schedule_job_waits.
Qed.

Lemma pass_ok_loop avail q p :
  pass_ok avail p → pass_ok avail (foldl schedule_job p q).
Proof.
  revert p. induction q as [|job q IH]; intros p Hp; simpl; [done|].
  by apply IH, schedule_job_ok.
Qed.

Lemma foldl_add_call_GetNodeJobCount s l :
  let s' := foldl (λ s n, add_call (pc_GetNodeJobCount n) s) s l in
  settings s' = settings s ∧ waiting_jobs s' = waiting_jobs s ∧
  running_jobs s' = running_jobs s ∧
  power_controller s' = power_controller s ∧
  executed (calls s') = executed (calls s).
Proof.
  revert s. induction l as [|n l IH]; intros s; simpl; [done|].
  destruct (IH (add_call (pc_GetNodeJobCount n) s)) as (-> & -> & -> & -> & ->).
  simpl. by rewrite executed_app, app_nil_r.
Qed.

Lemma start_pass_facts s avail :
  let p := start_pass s avail in
  settings (self p) = settings s ∧ waiting_jobs (self p) = [] ∧
  running_jobs (self p) = running_jobs s ∧
  executed (calls (self p)) = executed (calls s) ∧
  remaining_nodes p = avail ∧ jobs_to_execute p = [].
Proof.
  unfold start_pass.
  destruct (foldl_add_call_GetNodeJobCount s avail) as (Hs & Hw & Hr & Hp & He).
  cbv zeta. repeat split.
  - by rewrite <- Hs.
  - by rewrite <- Hr.
  - by rewrite <- He.
Qed.

Lemma start_pass_ok s avail : pass_ok (list_to_set avail) (start_pass s avail).
Proof.
  split; [|split]; simpl.
  - intros n Hn. by apply elem_of_list_to_set.
  - intros j Hj. by apply elem_of_nil in Hj.
  - apply pairwise_disjoint_nil.
Qed.

Lemma try_schedule_jobs_runs s :
  waiting_jobs s ≠ [] → GetAvailableNodes (power_controller s) ≠ [] →
  try_schedule_jobs s =
    Returns (if truthy (jobs_to_execute (the_pass s))
             then add_call (bs_execute_jobs (jobs_to_execute (the_pass s)))
                    (self (the_pass s))
             else self (the_pass s)).
Proof.
  intros Hw Ha. unfold try_schedule_jobs, the_pass.
  destruct (waiting_jobs s) eqn:Ew; [done|].
  destruct (GetAvailableNodes (power_controller s)) eqn:Ea; [done|].
  simpl. rewrite Ew. by destruct (truthy _).
Qed.

(** The three ways in which [try_schedule_jobs] ends. *)
Lemma try_schedule_jobs_cases s :
  (waiting_jobs s = [] ∧ try_schedule_jobs s = Returns s) ∨
  (waiting_jobs s ≠ [] ∧ GetAvailableNodes (power_controller s) = [] ∧
   try_schedule_jobs s =
     Raises (AssertionError "No available nodes") (add_call pc_GetAvailableNodes s)) ∨
  (waiting_jobs s ≠ [] ∧ GetAvailableNodes (power_controller s) ≠ [] ∧
   try_schedule_jobs s =
     Returns (if truthy (jobs_to_execute (the_pass s))
              then add_call (bs_execute_jobs (jobs_to_execute (the_pass s)))
                     (self (the_pass s))
              else self (the_pass s))).
Proof.
  destruct (decide (waiting_jobs s = [])) as [Hw|Hw].
  - left. split; [done|]. unfold try_schedule_jobs. by rewrite Hw.
  - right. destruct (decide (GetAvailableNodes (power_controller s) = [])) as [Ha|Ha].
    + left. repeat split; try done. unfold try_schedule_jobs.
      destruct (waiting_jobs s); [done|]. simpl. by rewrite Ha.
    + right. repeat split; try done. by apply try_schedule_jobs_runs.
Qed.
End Disjointness.

Section PassEffect.
Context {PC : Type} `{PowerController PC}.
Implicit Type s : PowerControlScheduler PC.

Lemma the_pass_effect s :
  pass_effect s
    (if truthy (jobs_to_execute (the_pass s))
     then add_call (bs_execute_jobs (jobs_to_execute (the_pass s))) (self (the_pass s))
     else self (the_pass s))
    (jobs_to_execute (the_pass s)).
Proof.
  unfold the_pass. cbv zeta.
  set (avail := GetAvailableNodes (power_controller s)).
  set (p0 := start_pass (add_call pc_GetAvailableNodes s) avail).
  destruct (start_pass_facts (add_call pc_GetAvailableNodes s) avail)
    as (Hs0 & Hw0 & Hr0 & He0 & Hrem0 & Hj0).
  fold p0 in Hs0, Hw0, Hr0, He0, Hrem0, Hj0.
  destruct (pass_settings (waiting_jobs s) p0) as [Hs He].
  destruct (pass_lists (waiting_jobs s) p0)
    as (placed & kept & Hj & Hr & Hw & Hk & Hid & Hreq & Hlen).
  pose proof (pass_ok_loop _ (waiting_jobs s) p0 (start_pass_ok _ avail))
    as (_ & Hal & Hpd).
  set (p := foldl schedule_job p0 (waiting_jobs s)) in *.
  rewrite Hj0 in Hj. rewrite Hw0 in Hw. rewrite Hr0 in Hr. simpl in Hj, Hw, Hr.
  assert (Hex : executed (calls (self p)) = executed (calls s)).
  { rewrite He, He0. simpl. by rewrite executed_app, app_nil_r. }
  assert (HS : settings (self p) = settings s) by (by rewrite Hs, Hs0).
  rewrite Hj in *. clear Hj.
  assert (Hsub : ∀ j, j ∈ placed → allocation j ⊆ list_to_set avail).
  { intros j Hin. by apply Hal. }
  unfold pass_effect. destruct placed as [|j0 placed']; cbn [truthy].
  - rewrite Hw, Hr, Hex, HS, !app_nil_r. repeat split; try done; lia.
  - split; [exact HS|]. split; [exact Hr|]. split; [simpl; by rewrite Hw|].
    split; [simpl; rewrite Hw; simpl in Hlen; lia|]. split; [done|]. split; [done|].
    split; [|done].
    change (executed (calls (self p) ++ [bs_execute_jobs (j0 :: placed')]) =
            executed (calls s) ++ [j0 :: placed']).
    by rewrite executed_app, Hex.
Qed.

Lemma try_schedule_jobs_effect s s' :
  try_schedule_jobs s = Returns s' → ∃ placed, pass_effect s s' placed.
Proof.
  destruct (try_schedule_jobs_cases s) as [[Hw ->]|[(_ & _ & ->)|(_ & _ & ->)]].
  - intros [= <-]. exists []. unfold pass_effect. rewrite Hw, !app_nil_r.
    split_and!; simpl; rewrite ?app_nil_r; try done.
    by intros j Hj%elem_of_nil.
  - discriminate.
  - intros [= <-]. eexists. apply the_pass_effect.
Qed.

(** A raising pass leaves the queues and the settings as they were. *)
Lemma try_schedule_jobs_raises s e s' :
  try_schedule_jobs s = Raises e s' →
  settings s' = settings s ∧ waiting_jobs s' = waiting_jobs s ∧
  running_jobs s' = running_jobs s ∧ power_controller s' = power_controller s.
Proof.
  destruct (try_schedule_jobs_cases s) as [[Hw ->]|[(_ & _ & ->)|(_ & _ & ->)]];
    try discriminate.
  by intros [= <- <-].
Qed.
End PassEffect.

(** ** Facts about the event handlers *)

Section HandlerFacts.
Context {PC : Type} `{PowerController PC}.
Implicit Type s : PowerControlScheduler PC.

Lemma list_remove_job_sublist job jobs : list_remove_job job jobs `sublist_of` jobs.
Proof.
  induction jobs as [|j jobs IH]; simpl; [done|].
  case_bool_decide; [by apply sublist_cons|by apply sublist_skip].
Qed.

Lemma executed_RemoveJobFromNode l : executed (map pc_RemoveJobFromNode l) = [].
Proof. induction l; simpl; auto. Qed.

Lemma foldl_remove_job_from_node s l :
  let s' := foldl remove_job_from_node s l in
  settings s' = settings s ∧ waiting_jobs s' = waiting_jobs s ∧
  running_jobs s' = running_jobs s ∧
  calls s' = calls s ++ map pc_RemoveJobFromNode l.
Proof.
  revert s. induction l as [|n l IH]; intros s; simpl.
  - by rewrite app_nil_r.
  - destruct (IH (remove_job_from_node s n)) as (-> & -> & -> & ->). simpl.
    by rewrite <- app_assoc.
Qed.

Lemma onMachinePStateChanged_effect s machines new_pstate :
  ∃ s', onMachinePStateChanged s machines new_pstate = Returns s' ∧
    settings s' = settings s ∧ waiting_jobs s' = waiting_jobs s ∧
    running_jobs s' = running_jobs s ∧
    executed (calls s') = executed (calls s).
Proof.
  unfold onMachinePStateChanged. eexists. split; [done|].
  revert s. induction machines as [|m machines IH]; intros s; simpl; [done|].
  destruct (IH (call_pc (λ pc, HandleStateTransitionComplete pc m new_pstate)
                  (pc_HandleStateTransitionComplete m new_pstate) s))
    as (-> & -> & -> & ->).
  simpl. by rewrite executed_app, app_nil_r.
Qed.

Lemma recorded_facts s :
  bs_time (recorded s) = bs_time s ∧
  bs_nb_resources (recorded s) = bs_nb_resources s ∧
  record_interval (recorded s) = record_interval s ∧
  simulation_started (recorded s) = simulation_started s ∧
  waiting_jobs (recorded s) = waiting_jobs s ∧
  running_jobs (recorded s) = running_jobs s ∧
  (∃ pre, pre ∈ [[]; [pc_ExecutePowerActions]] ∧
     calls (recorded s) =
       calls s ++ pre ++
       [pc_RecordSystemState (bs_time s) (running_jobs s) (waiting_jobs s)
          (current_power s)]).
Proof.
  unfold recorded.
  destruct (PrimFloat.leb _ _); simpl; split_and!; try done.
  - exists [pc_ExecutePowerActions]. split; [set_solver|].
    by rewrite <- app_assoc.
  - exists []. split; [set_solver|done].
Qed.

Lemma onRequestedCall_cases s :
  onRequestedCall s =
    if simulation_started s && negb (truthy (running_jobs s) || truthy (waiting_jobs s))
    then Returns (recorded s)
    else Returns (add_call (bs_wake_me_up_at (bs_time s + record_interval s)%float)
                    (recorded s)).
Proof.
  unfold onRequestedCall. fold (recorded s).
  destruct (recorded_facts s) as (Ht & _ & Hi & -> & -> & -> & _).
  unfold schedule_next_record. by rewrite Ht, Hi.
Qed.
End HandlerFacts.

Ltac trivial_lists :=
  first [ done | by apply sublist_inserts_r | apply sublist_nil_l
        | apply pairwise_disjoint_nil ].

Section RunFacts.
Context {PC : Type} `{PowerController PC}.
Implicit Type s : PowerControlScheduler PC.

Lemma step_effect_quiet ev s s' :
  is_submission ev = false →
  bs_nb_resources s' = bs_nb_resources s →
  simulation_started s' = simulation_started s →
  waiting_jobs s' = waiting_jobs s →
  running_jobs s' = running_jobs s →
  executed (calls s') = executed (calls s) →
  step_effect ev s s'.
Proof.
  intros Hev Hnb Hst Hw Hr He. unfold step_effect.
  rewrite Hnb, Hst, Hev, orb_false_r. split_and!; try done.
  exists (running_jobs s), []. rewrite Hw, Hr, He, !app_nil_r. simpl.
  split_and!; trivial_lists.
Qed.

Lemma step_effect_pass ev s s1 s' placed :
  bs_nb_resources s1 = bs_nb_resources s →
  simulation_started s1 = simulation_started s || is_submission ev →
  running_jobs s1 `sublist_of` running_jobs s →
  waiting_jobs s1 = waiting_jobs s ++ admitted (bs_nb_resources s) ev →
  executed (calls s1) = executed (calls s) →
  pass_effect s1 s' placed →
  step_effect ev s s'.
Proof.
  intros Hnb Hst Hr Hw He (HS & Hr' & Hw' & _ & _ & Hreq & He' & Hpd & _).
  unfold step_effect.
  rewrite (settings_nb _ _ HS), (settings_started _ _ HS), Hnb, Hst.
  split_and!; try done.
  exists (running_jobs s1), placed. rewrite <- Hw, <- He. by split_and!.
Qed.

Lemma handle_effect now ev s s' :
  handle now ev s = Returns s' → step_effect ev s s'.
Proof.
  destruct ev as [|job|job|job jobs|ts job msg|machines new_pstate|e| |];
    unfold handle; cbv zeta.
  - rewrite onRequestedCall_cases.
    destruct (recorded_facts (set_bs_time now s))
      as (_ & Hnb & _ & Hst & Hw & Hr & pre & Hpre & Hc).
    assert (He : executed (calls (recorded (set_bs_time now s))) = executed (calls s)).
    { rewrite Hc. simpl. rewrite !executed_app. simpl.
      apply list_elem_of_In in Hpre. simpl in Hpre.
      destruct Hpre as [<-|[<-|[]]]; simpl; by rewrite app_nil_r. }
    destruct (_ && _); intros [= <-].
    + by apply step_effect_quiet.
    + apply step_effect_quiet; try done. simpl.
      by rewrite executed_app, app_nil_r.
  - unfold onJobSubmission. cbv zeta. simpl bs_nb_resources.
    case_bool_decide as Hbig.
    + intros [= <-]. unfold step_effect. simpl.
      rewrite bool_decide_true by done. rewrite app_nil_r, executed_app. simpl.
      rewrite orb_true_r. split_and!; try done.
      exists (running_jobs s), []. rewrite !app_nil_r. simpl.
      split_and!; trivial_lists.
    + intros [placed Hp]%try_schedule_jobs_effect.
      eapply step_effect_pass; [..|exact Hp]; simpl; try done.
      * by rewrite orb_true_r.
      * by rewrite bool_decide_false.
  - unfold onJobCompletion. cbv zeta.
    set (s1 := if job_in job _ then _ else _).
    destruct (foldl_remove_job_from_node s1 (procset_iter (allocation job)))
      as (HS & Hw & Hr & Hc).
    intros [placed Hp]%try_schedule_jobs_effect.
    eapply step_effect_pass; [..|exact Hp].
    + rewrite (settings_nb _ _ HS). unfold s1. by destruct (job_in _ _).
    + rewrite (settings_started _ _ HS), orb_false_r. unfold s1.
      by destruct (job_in _ _).
    + rewrite Hr. unfold s1. destruct (job_in _ _); simpl; [|done].
      apply list_remove_job_sublist.
    + rewrite Hw. simpl. rewrite app_nil_r. unfold s1. by destruct (job_in _ _).
    + rewrite Hc, executed_app, executed_RemoveJobFromNode, app_nil_r.
      unfold s1. by destruct (job_in _ _).
  - discriminate.
  - intros [= <-]. by apply step_effect_quiet.
  - destruct (onMachinePStateChanged_effect (set_bs_time now s) machines new_pstate)
      as (s2 & -> & HS & Hw & Hr & He).
    intros [= <-]. apply step_effect_quiet; try done.
    + by rewrite (settings_nb _ _ HS).
    + by rewrite (settings_started _ _ HS).
  - unfold onReportEnergyConsumed. cbv zeta.
    intros [= <-]. apply step_effect_quiet; try done; simpl;
      by repeat destruct (PrimFloat.ltb _ _).
  - discriminate.
  - intros [= <-]. by apply step_effect_quiet.
Qed.
End RunFacts.

Lemma Forall_sublist {A} (P : A → Prop) (l k : list A) :
  l `sublist_of` k → Forall P k → Forall P l.
Proof.
  rewrite !Forall_forall. intros Hsub Hk x Hx. apply Hk.
  by eapply elem_of_sublist.
Qed.

Section Invariants.
Context {PC : Type} `{PowerController PC}.
Implicit Type s : PowerControlScheduler PC.

Lemma run_invariant (I : PowerControlScheduler PC → Prop) :
  (∀ now ev s s', I s → handle now ev s = Returns s' → I s') →
  ∀ evs s s', I s → run evs s = Returns s' → I s'.
Proof.
  intros Hstep evs. induction evs as [|[now ev] evs IH]; intros s s' Hs; simpl.
  - by intros [= <-].
  - destruct (handle now ev s) as [s1|e s1] eqn:Hh; [|discriminate].
    apply IH. by eapply Hstep.
Qed.

Lemma Forall_requested_sublist (nb : Z) (l k : list Job) :
  map requested_resources l `sublist_of` map requested_resources k →
  Forall (λ j, requested_resources j ≤ nb) k →
  Forall (λ j, requested_resources j ≤ nb) l.
Proof.
  intros Hsub Hk.
  apply (Forall_fmap requested_resources (λ r, r ≤ nb)).
  apply (Forall_fmap requested_resources (λ r, r ≤ nb)) in Hk.
  by eapply Forall_sublist.
Qed.

Lemma capacity_ok_step nb now ev s s' :
  capacity_ok nb s → handle now ev s = Returns s' → capacity_ok nb s'.
Proof.
  intros [Hnb Hall] (Hnb' & _ & base & placed & Hb & Hr & Hw & Hq & _)%handle_effect.
  split; [congruence|]. rewrite Hnb in *.
  apply Forall_app in Hall as [Hallw Hallr].
  assert (Hadm : Forall (λ j, requested_resources j ≤ nb)
                   (waiting_jobs s ++ admitted nb ev)).
  { apply Forall_app. split; [done|]. destruct ev; simpl; try done.
    case_bool_decide; [done|]. apply Forall_singleton. lia. }
  rewrite Hr. rewrite !Forall_app. split_and!.
  - by eapply Forall_sublist.
  - by eapply Forall_sublist.
  - by eapply Forall_requested_sublist.
Qed.

Lemma batches_ok_step now ev s s' :
  batches_ok s → handle now ev s = Returns s' → batches_ok s'.
Proof.
  intros [Hrun Hbat] (_ & _ & base & placed & Hb & Hr & _ & _ & He & Hpd)%handle_effect.
  split.
  - intros j. rewrite Hr, He. intros [Hj|Hj]%elem_of_app.
    + destruct (Hrun j) as (batch & Hin & Hjb).
      { by eapply elem_of_sublist. }
      exists batch. split; [|done]. apply elem_of_app. by left.
    + exists placed. split; [|done]. apply elem_of_app. right.
      assert (truthy placed = true) as -> by (by destruct Hj).
      set_solver.
  - intros batch. rewrite He. intros [Hin|Hin]%elem_of_app; [by apply Hbat|].
    destruct placed; simpl in Hin; [by apply elem_of_nil in Hin|].
    by apply list_elem_of_singleton in Hin as ->.
Qed.

Lemma run_started evs s s' :
  run evs s = Returns s' →
  simulation_started s' =
    simulation_started s || existsb (λ e, is_submission e.2) evs.
Proof.
  revert s. induction evs as [|[now ev] evs IH]; intros s; simpl.
  - intros [= <-]. by rewrite orb_false_r.
  - destruct (handle now ev s) as [s1|e s1] eqn:Hh; [|discriminate].
    intros ->%IH. apply handle_effect in Hh as (_ & -> & _).
    by rewrite orb_assoc.
Qed.

Lemma existsb_submission evs :
  existsb (λ e : float * Event, is_submission e.2) evs = true ↔
  ∃ t job, (t, JobSubmission job) ∈ evs.
Proof.
  rewrite existsb_exists. split.
  - intros ([t ev] & Hin%list_elem_of_In & Hev). destruct ev; try done. eauto.
  - intros (t & job & Hin%list_elem_of_In). by exists (t, JobSubmission job).
Qed.
End Invariants.

(** ** The guard of the scheduling pass *)

(** C8. [try_schedule_jobs] is a no-op when the waiting queue is empty: it
    returns the scheduler object unchanged, the recorded calls included, so
    neither the power controller nor the engine is called.  When the queue is
    not empty and the controller reports no available node, the pass raises
    the assertion failure "No available nodes" after its one query.  The pass
    raises in no other case, so the assertion is reached only with at least
    one job waiting. *)
Theorem try_schedule_jobs_guard {PC} `{PowerController PC}
    (s : PowerControlScheduler PC) :
  (waiting_jobs s = [] → try_schedule_jobs s = Returns s) ∧
  (waiting_jobs s ≠ [] → GetAvailableNodes (power_controller s) = [] →
   try_schedule_jobs s =
     Raises (AssertionError "No available nodes") (add_call pc_GetAvailableNodes s)) ∧
  (∀ e s', try_schedule_jobs s = Raises e s' →
   waiting_jobs s ≠ [] ∧ GetAvailableNodes (power_controller s) = [] ∧
   e = AssertionError "No available nodes").
Proof.
  unfold try_schedule_jobs. split; [|split].
  - intros ->. reflexivity.
  - intros Hw Ha. destruct (waiting_jobs s) eqn:E; [done|]. simpl.
    rewrite Ha. reflexivity.
  - intros e s'. destruct (waiting_jobs s) eqn:E; simpl; [discriminate|].
    destruct (GetAvailableNodes (power_controller s)) eqn:Ea; simpl.
    + intros [= <- <-]. done.
    + destruct (truthy _); discriminate.
Qed.

Lemma try_schedule_jobs_guard_witness :
  try_schedule_jobs (init 0 4 (idle_cluster 4)) = Returns (init 0 4 (idle_cluster 4)) ∧
  try_schedule_jobs (set_waiting_jobs [job_A] (init 0 4 (sleeping_cluster 4))) =
    Raises (AssertionError "No available nodes")
      (add_call pc_GetAvailableNodes
         (set_waiting_jobs [job_A] (init 0 4 (sleeping_cluster 4)))).
Proof.
  split.
  - apply (proj1 (try_schedule_jobs_guard _)). reflexivity.
  - apply (proj1 (proj2 (try_schedule_jobs_guard _))).
    + discriminate.
    + reflexivity.
Defined.

(** ** Admission control *)

(** C3. A job that asks for more nodes than the cluster has is rejected at
    submission: the handler returns at once, the waiting queue, the running
    list and the controller are as before and the only call made is
    [reject_jobs], so no scheduling pass runs for it.  Any other job is
    appended at the tail of the waiting queue and the handler continues with
    a scheduling pass.  In every state a run reaches, no queued or running
    job asks for more nodes than the cluster has, so a rejected job is never
    in either list. *)
Theorem admission_control {PC} `{PowerController PC} :
  (∀ (s : PowerControlScheduler PC) job,
     bs_nb_resources s < requested_resources job →
     ∃ s', onJobSubmission s job = Returns s' ∧
       waiting_jobs s' = waiting_jobs s ∧ running_jobs s' = running_jobs s ∧
       power_controller s' = power_controller s ∧
       calls s' = calls s ++ [bs_reject_jobs [job]]) ∧
  (∀ (s : PowerControlScheduler PC) job,
     requested_resources job ≤ bs_nb_resources s →
     onJobSubmission s job =
       try_schedule_jobs
         (set_waiting_jobs (waiting_jobs s ++ [job]) (set_simulation_started true s))) ∧
  (∀ t0 nb (pc : PC) evs s,
     run evs (init t0 nb pc) = Returns s →
     ∀ j, j ∈ waiting_jobs s ++ running_jobs s → requested_resources j ≤ nb).
Proof.
  split_and!.
  - intros s job Hbig. unfold onJobSubmission. cbv zeta. simpl bs_nb_resources.
    rewrite bool_decide_true by done. by eexists.
  - intros s job Hfit. unfold onJobSubmission. cbv zeta. simpl bs_nb_resources.
    rewrite bool_decide_false by lia. done.
  - intros t0 nb pc evs s Hrun.
    assert (Hok : capacity_ok nb s).
    { eapply (run_invariant (capacity_ok nb)); [|..|exact Hrun].
      - intros now ev s1 s2. apply capacity_ok_step.
      - split; [done|]. simpl. constructor. }
    destruct Hok as [_ Hall]. by apply Forall_forall.
Qed.

Lemma admission_control_witness :
  (∃ s', onJobSubmission (init 0 4 (idle_cluster 4)) job_D = Returns s' ∧
     waiting_jobs s' = [] ∧ running_jobs s' = [] ∧
     power_controller s' = idle_cluster 4 ∧
     calls s' = [bs_reject_jobs [job_D]]) ∧
  onJobSubmission (init 0 4 (idle_cluster 4)) job_A =
    try_schedule_jobs
      (set_waiting_jobs [job_A] (set_simulation_started true (init 0 4 (idle_cluster 4)))) ∧
  (∀ j, j ∈ waiting_jobs scenario_AB ++ running_jobs scenario_AB →
        requested_resources j ≤ 4).
Proof.
  split_and!.
  - apply (proj1 admission_control (init 0 4 (idle_cluster 4)) job_D). simpl. lia.
  - apply (proj1 (proj2 admission_control) (init 0 4 (idle_cluster 4)) job_A).
    simpl. lia.
  - apply (proj2 (proj2 admission_control) 0%float 4 (idle_cluster 4)
             [(0%float, JobSubmission job_A); (1%float, JobSubmission job_B)]).
    vm_compute. reflexivity.
Defined.

(** ** Idle shutdown *)

(** C7. A periodic tick always records the system state: the calls it makes
    are [ExecutePowerActions] when the power check is due, then
    [RecordSystemState].  After a run in which a job was submitted, when the
    waiting queue and the running list are both empty the tick stops there
    and requests no wake-up; every other tick ends by requesting a wake-up at
    the current time plus [record_interval]. *)
Theorem idle_shutdown {PC} `{PowerController PC}
    t0 nb (pc : PC) evs s now :
  run evs (init t0 nb pc) = Returns s →
  let tick := recorded (set_bs_time now s) in
  let idle :=
    (∃ t job, (t, JobSubmission job) ∈ evs) ∧
    waiting_jobs s = [] ∧ running_jobs s = [] in
  (∃ pre, pre ∈ [[]; [pc_ExecutePowerActions]] ∧
     calls tick =
       calls s ++ pre ++
       [pc_RecordSystemState now (running_jobs s) (waiting_jobs s) (current_power s)]) ∧
  (idle → handle now RequestedCall s = Returns tick) ∧
  (¬ idle →
   handle now RequestedCall s =
     Returns (add_call (bs_wake_me_up_at (now + record_interval s)%float) tick)).
Proof.
  intros Hrun tick idle.
  pose proof (run_started _ _ _ Hrun) as Hst. simpl in Hst.
  pose proof (existsb_submission evs) as Hex.
  split_and!.
  - by destruct (recorded_facts (set_bs_time now s)) as (_ & _ & _ & _ & _ & _ & ?).
  - intros (Hsub & Hw & Hr). unfold handle. rewrite onRequestedCall_cases. simpl.
    rewrite Hst, Hw, Hr. apply Hex in Hsub. by rewrite Hsub.
  - intros Hidle. unfold handle. rewrite onRequestedCall_cases. simpl.
    destruct (simulation_started s) eqn:Hs; [|done].
    destruct (running_jobs s) eqn:Hr; [|done].
    destruct (waiting_jobs s) eqn:Hw; [|done].
    exfalso. apply Hidle. split_and!; try done. apply Hex. by rewrite <- Hst.
Qed.

Lemma idle_shutdown_witness :
  let s := final (run [(1%float, JobSubmission job_D)] (init 0 4 (idle_cluster 4))) in
  handle 60 RequestedCall s = Returns (recorded (set_bs_time 60 s)) ∧
  handle 60 RequestedCall (init 0 4 (idle_cluster 4)) =
    Returns (add_call (bs_wake_me_up_at 120)
               (recorded (set_bs_time 60 (init 0 4 (idle_cluster 4))))).
Proof.
  split.
  - apply (proj1 (proj2 (idle_shutdown 0%float 4 (idle_cluster 4)
                           [(1%float, JobSubmission job_D)] _ 60%float eq_refl))).
    split_and!; try reflexivity. exists 1%float, job_D. set_solver.
  - apply (proj2 (proj2 (idle_shutdown 0%float 4 (idle_cluster 4) [] _ 60%float eq_refl))).
    intros [(t & job & Hin) _]. by apply elem_of_nil in Hin.
Defined.

(** C9. Every call of [onJobSubmission] leaves [simulation_started] set,
    whether it returns or raises and also when the job is rejected as
    oversized.  Hence a run whose only submitted job is rejected, so that
    nothing is ever queued or executed, ends its next periodic tick without
    requesting a wake-up. *)
Theorem rejected_submission_starts_simulation {PC} `{PowerController PC} :
  (∀ (s : PowerControlScheduler PC) job,
     simulation_started (final (onJobSubmission s job)) = true) ∧
  (∀ t0 nb (pc : PC) t1 t2 job,
     nb < requested_resources job →
     ∃ s, run [(t1, JobSubmission job); (t2, RequestedCall)] (init t0 nb pc)
            = Returns s ∧
       simulation_started s = true ∧
       waiting_jobs s = [] ∧ running_jobs s = [] ∧
       executed (calls s) = [] ∧
       head (calls s) = Some (bs_reject_jobs [job]) ∧
       last (calls s) = Some (pc_RecordSystemState t2 [] [] 0) ∧
       ∀ t, bs_wake_me_up_at t ∉ calls s).
Proof.
  split.
  - intros s job. unfold onJobSubmission. cbv zeta. case_bool_decide; [done|].
    destruct (try_schedule_jobs _) as [s'|e s'] eqn:Hp; simpl.
    + apply try_schedule_jobs_effect in Hp as (placed & HS & _).
      by rewrite (settings_started _ _ HS).
    + apply try_schedule_jobs_raises in Hp as (HS & _).
      by rewrite (settings_started _ _ HS).
  - intros t0 nb pc t1 t2 job Hbig. cbn [run]. unfold handle at 1.
    unfold onJobSubmission. cbv zeta. simpl bs_nb_resources.
    rewrite bool_decide_true by done.
    unfold handle. rewrite onRequestedCall_cases. simpl.
    eexists. split; [done|]. unfold recorded. simpl.
    destruct (PrimFloat.leb _ _); simpl; split_and!; try done;
      intros t Hin%list_elem_of_In; simpl in Hin; intuition discriminate.
Qed.

Lemma rejected_submission_starts_simulation_witness :
  ∃ s, run [(1%float, JobSubmission job_D); (60%float, RequestedCall)]
         (init 0 4 (idle_cluster 4)) = Returns s ∧
    simulation_started s = true ∧
    waiting_jobs s = [] ∧ running_jobs s = [] ∧
    executed (calls s) = [] ∧
    head (calls s) = Some (bs_reject_jobs [job_D]) ∧
    last (calls s) = Some (pc_RecordSystemState 60 [] [] 0) ∧
    ∀ t, bs_wake_me_up_at t ∉ calls s.
Proof.
  apply (proj2 rejected_submission_starts_simulation 0%float 4 (idle_cluster 4)
           1%float 60%float job_D).
  simpl. lia.
Defined.

(** ** Power metering *)

(** C5 (the code at the scenario of the claim).  From the initial meter, the
    report at time 0 with energy 0 leaves [current_power] at 0 and stores the
    reading.  The report at time 60 with energy 600 finds
    [last_energy_time = 0], which fails the test [last_energy_time > 0] meant
    to skip the first report only: [current_power] stays 0, it does not become
    10.  A report of the same power one minute later does yield 10. *)
Theorem power_metering_scenario {PC} `{PowerController PC} nb (pc : PC) :
  let s1 := final (run [(0%float, ReportEnergyConsumed 0)] (init 0 nb pc)) in
  let s2 := final (handle 60 (ReportEnergyConsumed 600) s1) in
  let s3 := final (handle 120 (ReportEnergyConsumed 1200) s2) in
  (current_power s1 = 0%float ∧ last_energy s1 = 0%float ∧
   last_energy_time s1 = 0%float) ∧
  (current_power s2 = 0%float ∧ current_power s2 ≠ 10%float ∧
   last_energy s2 = 600%float ∧ last_energy_time s2 = 60%float) ∧
  current_power s3 = 10%float.
Proof.
  cbv zeta. split_and!; try reflexivity.
  intros Heq. vm_compute in Heq. discriminate Heq.
Qed.

(** ** Completion events *)

(** C6 (the code at a duplicated completion event).  On four idle nodes job
    A is submitted, placed on nodes 0 and 1, and completes; all job counts
    are back to 0 and A is no longer running.  When the completion event of A
    is delivered a second time the handler returns, but it calls
    [RemoveJobFromNode] for nodes 0 and 1 again and their job counts change
    (to -1 in the modelled controller). *)
Theorem duplicate_completion_scenario :
  let s0 := final (run [(0%float, JobSubmission job_A)] (init 0 4 (idle_cluster 4))) in
  let s := final (handle 10 (JobCompletion job_A_placed) s0) in
  running_jobs s0 = [job_A_placed] ∧
  (running_jobs s = [] ∧ waiting_jobs s = [] ∧
   job_in job_A_placed (running_jobs s) = false ∧
   map job_count (nodes (power_controller s)) = [0; 0; 0; 0]) ∧
  ∃ s', handle 11 (JobCompletion job_A_placed) s = Returns s' ∧
    running_jobs s' = [] ∧ waiting_jobs s' = [] ∧
    calls s' = calls s ++ [pc_RemoveJobFromNode 0%nat; pc_RemoveJobFromNode 1%nat] ∧
    map job_count (nodes (power_controller s')) = [-1; -1; 0; 0].
Proof.
  cbv zeta. split_and!; try (vm_compute; reflexivity).
  eexists. split_and!; vm_compute; reflexivity.
Qed.

(** ** Allocations made by one pass *)

(** C10. A call of [try_schedule_jobs] with an empty queue or at least one
    available node returns; the jobs it appends to the running list are the
    batch it hands to [execute_jobs]; the allocations in that batch are
    pairwise disjoint and contain only nodes that [GetAvailableNodes]
    reported at the start of the pass.  The reason is the step of the loop:
    the nodes given to a job come from the remaining pool and are no longer
    in the pool when the next job is considered. *)
Theorem pass_allocations_disjoint {PC} `{PowerController PC} :
  (∀ s : PowerControlScheduler PC,
     waiting_jobs s = [] ∨ GetAvailableNodes (power_controller s) ≠ [] →
     ∃ s' batch, try_schedule_jobs s = Returns s' ∧
       running_jobs s' = running_jobs s ++ batch ∧
       executed (calls s') =
         executed (calls s) ++ (if truthy batch then [batch] else []) ∧
       pairwise_disjoint batch ∧
       (∀ j, j ∈ batch →
          allocation j ⊆ list_to_set (GetAvailableNodes (power_controller s)))) ∧
  (∀ (p : Pass PC) job,
     fits p job →
     ∃ job', jobs_to_execute (schedule_job p job) = jobs_to_execute p ++ [job'] ∧
       ∀ n, n ∈ allocation job' →
         n ∈ remaining_nodes p ∧ n ∉ remaining_nodes (schedule_job p job)).
Proof.
  split.
  - intros s Hs.
    destruct (try_schedule_jobs_cases s) as [[Hw Hr]|[(Hw & Ha & _)|(_ & _ & Hr)]].
    + destruct (try_schedule_jobs_effect _ _ Hr)
        as (placed & _ & ? & _ & _ & _ & _ & ? & ? & ?).
      by exists s, placed.
    + by destruct Hs.
    + destruct (try_schedule_jobs_effect _ _ Hr)
        as (placed & _ & ? & _ & _ & _ & _ & ? & ? & ?).
      by eexists _, placed.
  - intros p job Hfit.
    destruct (schedule_job_fits p job Hfit) as (_ & _ & _ & Hj & Hr & _).
    eexists. split; [exact Hj|]. simpl. intros n Hn%elem_of_list_to_set. split.
    + by eapply select_nodes_elem_of.
    + rewrite Hr. intros [Hn' _]%list_elem_of_filter. by apply Hn'.
Qed.

Lemma pass_allocations_disjoint_witness :
  (∃ s' batch, try_schedule_jobs queue_ABC = Returns s' ∧
     running_jobs s' = running_jobs queue_ABC ++ batch ∧
     executed (calls s') =
       executed (calls queue_ABC) ++ (if truthy batch then [batch] else []) ∧
     pairwise_disjoint batch ∧
     (∀ j, j ∈ batch →
        allocation j ⊆ list_to_set (GetAvailableNodes (power_controller queue_ABC)))) ∧
  (∃ job', jobs_to_execute (schedule_job (the_pass queue_ABC) job_C) =
             jobs_to_execute (the_pass queue_ABC) ++ [job'] ∧
     ∀ n, n ∈ allocation job' →
       n ∈ remaining_nodes (the_pass queue_ABC) ∧
       n ∉ remaining_nodes (schedule_job (the_pass queue_ABC) job_C)).
Proof.
  split.
  - apply (proj1 pass_allocations_disjoint queue_ABC). right. discriminate.
  - apply (proj2 pass_allocations_disjoint (the_pass queue_ABC) job_C).
    vm_compute. discriminate.
Defined.

(** ** Tie-break and determinism *)

Section Determinism.
Context {PC : Type} `{PowerController PC}.
Implicit Type s : PowerControlScheduler PC.
Implicit Type p : Pass PC.

Lemma foldl_add_job_to_node_loads st l :
  (foldl add_job_to_node st l).2 =
    foldl (λ (m : gmap node Z) n, <[n := m !!! n + 1]> m) st.2 l.
Proof. revert st. induction l as [|n l IH]; intros st; simpl; [done|]. by rewrite IH. Qed.

Lemma schedule_job_decision p1 p2 job :
  decision p1 = decision p2 →
  decision (schedule_job p1 job) = decision (schedule_job p2 job).
Proof.
  destruct p1 as [s1 l1 r1 j1], p2 as [s2 l2 r2 j2].
  intros [= -> -> -> Hw]. unfold schedule_job. simpl.
  case_bool_decide; unfold decision; simpl.
  - rewrite !foldl_add_job_to_node_loads. simpl.
    destruct (foldl_add_job_to_node (s1, l2)
                (select_nodes l2 r2 (requested_resources job))) as (_ & -> & _).
    destruct (foldl_add_job_to_node (s2, l2)
                (select_nodes l2 r2 (requested_resources job))) as (_ & -> & _).
    simpl. by rewrite Hw.
  - by rewrite Hw.
Qed.

Lemma pass_decision q p1 p2 :
  decision p1 = decision p2 →
  decision (foldl schedule_job p1 q) = decision (foldl schedule_job p2 q).
Proof.
  revert p1 p2. induction q as [|job q IH]; intros p1 p2 Hd; simpl; [done|].
  by apply IH, schedule_job_decision.
Qed.

Lemma node_loads_agree (pc1 pc2 : PC) (m : gmap node Z) l :
  (∀ n, n ∈ l → GetNodeJobCount pc1 n = GetNodeJobCount pc2 n) →
  foldl (λ m n, <[n := GetNodeJobCount pc1 n]> m) m l =
  foldl (λ m n, <[n := GetNodeJobCount pc2 n]> m) m l.
Proof.
  revert m. induction l as [|n l IH]; intros m Hl; simpl; [done|].
  rewrite (Hl n) by set_solver. apply IH. intros n' Hn'. apply Hl. set_solver.
Qed.

Lemma start_pass_decision s1 s2 avail :
  (∀ n, n ∈ avail →
     GetNodeJobCount (power_controller s1) n = GetNodeJobCount (power_controller s2) n) →
  decision (start_pass s1 avail) = decision (start_pass s2 avail).
Proof.
  intros Hl. unfold decision, start_pass. simpl. by rewrite (node_loads_agree _ _ _ _ Hl).
Qed.
End Determinism.

(** ** Lookups in [node_loads]

    The embedding reads [node_loads[n]] with a default.  The default is
    never used: throughout the loop every node of the pool, hence every node
    that is sorted or chosen, is a key of [node_loads], so the Python lookups
    raise no [KeyError]. *)

Section Lookups.
Context {PC : Type} `{PowerController PC}.
Implicit Type s : PowerControlScheduler PC.
Implicit Type p : Pass PC.

Lemma foldl_insert_is_Some (f : node → Z) (m : gmap node Z) l n :
  n ∈ l ∨ is_Some (m !! n) → is_Some (foldl (λ m n, <[n := f n]> m) m l !! n).
Proof.
  revert m. induction l as [|x l IH]; intros m; simpl.
  - intros [Hn%elem_of_nil|Hn]; done.
  - intros [Hn|Hn]; apply IH.
    + apply elem_of_cons in Hn as [->|Hn]; [right|by left].
      rewrite lookup_insert_eq. by eexists.
    + right. destruct (decide (x = n)) as [->|Hne].
      * rewrite lookup_insert_eq. by eexists.
      * by rewrite lookup_insert_ne.
Qed.

Lemma foldl_bump_is_Some (m : gmap node Z) l n :
  is_Some (m !! n) →
  is_Some (foldl (λ (m : gmap node Z) n, <[n := m !!! n + 1]> m) m l !! n).
Proof.
  revert m. induction l as [|x l IH]; intros m Hn; simpl; [done|].
  apply IH. destruct (decide (x = n)) as [->|Hne].
  - rewrite lookup_insert_eq. by eexists.
  - by rewrite lookup_insert_ne.
Qed.

Lemma schedule_job_loads_defined p job :
  (∀ n, n ∈ remaining_nodes p → is_Some (node_loads p !! n)) →
  ∀ n, n ∈ remaining_nodes (schedule_job p job) →
       is_Some (node_loads (schedule_job p job) !! n).
Proof.
  intros Hp n. unfold schedule_job. case_bool_decide; simpl.
  - intros [_ Hn]%list_elem_of_filter.
    rewrite foldl_add_job_to_node_loads. by apply foldl_bump_is_Some, Hp.
  - apply Hp.
Qed.

Lemma pass_before_loads_defined s pre n :
  n ∈ remaining_nodes (pass_before s pre) →
  is_Some (node_loads (pass_before s pre) !! n).
Proof.
  unfold pass_before. revert n.
  induction pre as [|job pre IH] using rev_ind; intros n.
  - simpl. intros Hn. apply foldl_insert_is_Some. by left.
  - rewrite foldl_app. simpl. by apply schedule_job_loads_defined.
Qed.
End Lookups.

(** C4. When a job is placed, the remaining pool is sorted in ascending order
    of (load, node id) and the job gets the first [requested_resources] nodes
    of the sorted pool; so of two nodes of the pool with equal load the one
    with the lower id is chosen first.  The allocation decisions of a pass
    (the batch with its allocations and the new waiting queue) are a function
    of the waiting queue, the available nodes and their loads alone. *)
Theorem tie_break_determinism {PC} `{PowerController PC} :
  (∀ (p : Pass PC) job,
     fits p job →
     let sorted_nodes := sorted (load_key (node_loads p)) (remaining_nodes p) in
     StronglySorted
       (λ a b, key_le (load_key (node_loads p) a) (load_key (node_loads p) b))
       sorted_nodes ∧
     sorted_nodes ≡ₚ remaining_nodes p ∧
     jobs_to_execute (schedule_job p job) =
       jobs_to_execute p ++ [set_allocation job (chosen p job)] ∧
     (0 ≤ requested_resources job →
      chosen p job = take (Z.to_nat (requested_resources job)) sorted_nodes ∧
      len (chosen p job) = requested_resources job) ∧
     (∀ a b, a ∈ remaining_nodes p → b ∈ chosen p job →
        node_loads p !!! a = node_loads p !!! b → (a < b)%nat →
        a ∈ chosen p job)) ∧
  (∀ s1 s2 : PowerControlScheduler PC,
     waiting_jobs s1 = waiting_jobs s2 →
     GetAvailableNodes (power_controller s1) = GetAvailableNodes (power_controller s2) →
     (∀ n, n ∈ GetAvailableNodes (power_controller s1) →
        GetNodeJobCount (power_controller s1) n =
        GetNodeJobCount (power_controller s2) n) →
     jobs_to_execute (the_pass s1) = jobs_to_execute (the_pass s2) ∧
     waiting_jobs (self (the_pass s1)) = waiting_jobs (self (the_pass s2))).
Proof.
  split.
  - intros p job Hfit sorted_nodes. split_and!.
    + apply sorted_StronglySorted.
    + apply sorted_Permutation.
    + by destruct (schedule_job_fits p job Hfit) as (_ & _ & _ & ? & _).
    + intros Hk. unfold chosen, select_nodes. cbv zeta. fold sorted_nodes.
      rewrite slice_to_nonneg by done. split; [done|].
      unfold len. rewrite length_take. unfold sorted_nodes.
      rewrite sorted_length. unfold fits, len in Hfit.
      unfold node in *. lia.
    + intros a b Ha Hb Hload Hlt. eapply select_nodes_lower; [done|exact Hb|].
      unfold key_le, load_key. cbn [fst snd]. unfold node in *. lia.
  - intros s1 s2 Hw Ha Hl. unfold the_pass. cbv zeta.
    assert (Hd : decision
                   (foldl schedule_job
                      (start_pass (add_call pc_GetAvailableNodes s1)
                         (GetAvailableNodes (power_controller s1))) (waiting_jobs s1)) =
                 decision
                   (foldl schedule_job
                      (start_pass (add_call pc_GetAvailableNodes s2)
                         (GetAvailableNodes (power_controller s2))) (waiting_jobs s2))).
    { rewrite <- Hw, <- Ha. apply pass_decision, start_pass_decision. exact Hl. }
    by injection Hd as _ _ -> ->.
Qed.

Lemma tie_break_determinism_witness :
  let p := start_pass queue_ABC [3; 0; 2; 1]%nat in
  let q :=
    pass_before
      (set_waiting_jobs [job_B]
         (final (run [(0%float, JobSubmission job_A)] (init 0 4 (idle_cluster 4)))))
      [] in
  (chosen p job_B =
     take 3 (sorted (load_key (node_loads p)) (remaining_nodes p)) ∧
   len (chosen p job_B) = 3) ∧
  (0 ∈ chosen p job_B)%nat ∧
  (chosen q job_B = [2; 3; 0]%nat ∧ (2 ∈ chosen q job_B)%nat) ∧
  jobs_to_execute (the_pass queue_ABC) =
    jobs_to_execute (the_pass (set_bs_time 7 queue_ABC)).
Proof.
  intros p q.
  assert (HB : fits p job_B) by (vm_compute; discriminate).
  destruct (proj1 tie_break_determinism _ _ HB) as (_ & _ & _ & Htake & Hlow).
  split; [|split; [|split]].
  - apply Htake. simpl. lia.
  - apply (Hlow 0%nat 2%nat).
    + apply list_elem_of_In. vm_compute. tauto.
    + apply list_elem_of_In. vm_compute. tauto.
    + vm_compute. reflexivity.
    + lia.
  - split; [vm_compute; reflexivity|].
    assert (HQ : fits q job_B) by (vm_compute; discriminate).
    destruct (proj1 tie_break_determinism _ _ HQ) as (_ & _ & _ & _ & Hlow').
    apply (Hlow' 2%nat 3%nat).
    + apply list_elem_of_In. vm_compute. tauto.
    + apply list_elem_of_In. vm_compute. tauto.
    + vm_compute. reflexivity.
    + lia.
  - apply (proj2 tie_break_determinism queue_ABC (set_bs_time 7 queue_ABC)).
    + reflexivity.
    + reflexivity.
    + intros n _. reflexivity.
Defined.

(** ** Skip-ahead scheduling *)

Section SkipAhead.
Context {PC : Type} `{PowerController PC}.
Implicit Type s : PowerControlScheduler PC.

Lemma the_pass_split s pre job post :
  waiting_jobs s = pre ++ job :: post →
  the_pass s = foldl schedule_job (schedule_job (pass_before s pre) job) post.
Proof.
  intros Hw. unfold the_pass, pass_before. cbv zeta.
  by rewrite Hw, foldl_app.
Qed.

Lemma pass_before_lists s pre :
  ∃ placed kept,
    jobs_to_execute (pass_before s pre) = placed ∧
    waiting_jobs (self (pass_before s pre)) = kept ∧
    kept `sublist_of` pre ∧
    (length placed + length kept = length pre)%nat.
Proof.
  unfold pass_before.
  destruct (pass_lists pre (start_pass (add_call pc_GetAvailableNodes s)
                              (GetAvailableNodes (power_controller s))))
    as (placed & kept & Hj & _ & Hw & Hk & _ & _ & Hlen).
  destruct (start_pass_facts (add_call pc_GetAvailableNodes s)
              (GetAvailableNodes (power_controller s)))
    as (_ & Hw0 & _ & _ & _ & Hj0).
  rewrite Hj0 in Hj. rewrite Hw0 in Hw. by exists placed, kept.
Qed.

(** The turn of one job of the queue, seen from the end of the pass. *)
Lemma the_pass_turn s pre job post :
  waiting_jobs s = pre ++ job :: post →
  let p := pass_before s pre in
  (fits p job →
   ∃ placed_post kept_post,
     jobs_to_execute (the_pass s) =
       jobs_to_execute p ++ set_allocation job (chosen p job) :: placed_post ∧
     waiting_jobs (self (the_pass s)) = waiting_jobs (self p) ++ kept_post ∧
     kept_post `sublist_of` post) ∧
  (¬ fits p job →
   ∃ placed_post kept_post,
     jobs_to_execute (the_pass s) = jobs_to_execute p ++ placed_post ∧
     waiting_jobs (self (the_pass s)) = waiting_jobs (self p) ++ job :: kept_post ∧
     kept_post `sublist_of` post).
Proof.
  intros Hw p. rewrite (the_pass_split s pre job post Hw). fold p.
  destruct (pass_lists post (schedule_job p job))
    as (placed & kept & Hj & _ & Hk & Hsub & _).
  rewrite Hj, Hk. split; intros Hfit.
  - destruct (schedule_job_fits p job Hfit) as (_ & -> & _ & -> & _).
    exists placed, kept. by rewrite <- app_assoc.
  - rewrite schedule_job_waits by done. simpl.
    exists placed, kept. by rewrite <- app_assoc.
Qed.
End SkipAhead.

(** C1, as the code has it.  One pass goes through the waiting queue in its
    order: it returns, the jobs it places are appended to the running list,
    the new waiting queue is a subsequence of the old one and every job of
    the queue ends in exactly one of the two.  At its turn a job that asks
    for at most the number of nodes left in the pool is placed, whatever
    happened to the jobs before it, and a job that asks for more is kept
    waiting while the jobs after it are still considered.  On the queue A, B,
    C over four idle nodes this gives A the nodes 0 and 1, keeps B waiting
    and gives C the node 2.  When A, B and C are submitted one after the
    other, each pass starts from all COMPUTING and IDLE nodes: A gets nodes 0
    and 1, B is placed at once on nodes 0, 2 and 3, and C on node 1. *)
Theorem skip_ahead_scheduling :
  (∀ PC (HPC : PowerController PC) (s : PowerControlScheduler PC),
     waiting_jobs s ≠ [] → GetAvailableNodes (power_controller s) ≠ [] →
     let placed := jobs_to_execute (the_pass s) in
     let kept := waiting_jobs (self (the_pass s)) in
     (∃ s', try_schedule_jobs s = Returns s' ∧
        running_jobs s' = running_jobs s ++ placed ∧ waiting_jobs s' = kept) ∧
     kept `sublist_of` waiting_jobs s ∧
     (length placed + length kept = length (waiting_jobs s))%nat ∧
     map job_id placed `sublist_of` map job_id (waiting_jobs s) ∧
     ∀ pre job post, waiting_jobs s = pre ++ job :: post →
       let p := pass_before s pre in
       (requested_resources job ≤ len (remaining_nodes p) →
        ∃ placed_post kept_post,
          placed = jobs_to_execute p ++
                   set_allocation job (chosen p job) :: placed_post ∧
          kept = waiting_jobs (self p) ++ kept_post ∧
          kept_post `sublist_of` post) ∧
       (len (remaining_nodes p) < requested_resources job →
        ∃ placed_post kept_post,
          placed = jobs_to_execute p ++ placed_post ∧
          kept = waiting_jobs (self p) ++ job :: kept_post ∧
          kept_post `sublist_of` post)) ∧
  (∃ s', try_schedule_jobs queue_ABC = Returns s' ∧
     view (running_jobs s') = [(1, [0; 1]); (3, [2])]%nat ∧
     map job_id (waiting_jobs s') = [2]%nat) ∧
  (view (running_jobs scenario_AB) = [(1, [0; 1]); (2, [0; 2; 3])]%nat ∧
   waiting_jobs scenario_AB = [] ∧
   view (running_jobs scenario_ABC) =
     [(1, [0; 1]); (2, [0; 2; 3]); (3, [1])]%nat ∧
   waiting_jobs scenario_ABC = []).
Proof.
  split; [|split].
  - intros PC HPC s Hw Ha placed kept.
    pose proof (the_pass_effect s) as (_ & Hr & Hsub & Hlen & Hid & _).
    assert (Hwait :
      waiting_jobs (if truthy (jobs_to_execute (the_pass s))
                    then add_call (bs_execute_jobs (jobs_to_execute (the_pass s)))
                           (self (the_pass s))
                    else self (the_pass s)) = kept).
    { by destruct (truthy _). }
    rewrite Hwait in Hsub, Hlen.
    split_and!; try done.
    + rewrite (try_schedule_jobs_runs s Hw Ha). by eexists.
    + intros pre job post Hq p.
      destruct (the_pass_turn s pre job post Hq) as [Hfit Hwaits].
      split; [exact Hfit|]. intros Hbig. apply Hwaits. unfold fits. fold p. lia.
  - exists (final (try_schedule_jobs queue_ABC)). vm_compute. auto.
  - vm_compute. auto.
Qed.

Lemma skip_ahead_scheduling_witness :
  let placed := jobs_to_execute (the_pass queue_ABC) in
  let kept := waiting_jobs (self (the_pass queue_ABC)) in
  (∃ placed_post kept_post,
     placed = jobs_to_execute (pass_before queue_ABC [job_A]) ++ placed_post ∧
     kept = waiting_jobs (self (pass_before queue_ABC [job_A])) ++ job_B :: kept_post ∧
     kept_post `sublist_of` [job_C]) ∧
  (∃ placed_post kept_post,
     placed =
       jobs_to_execute (pass_before queue_ABC [job_A; job_B]) ++
       set_allocation job_C (chosen (pass_before queue_ABC [job_A; job_B]) job_C)
       :: placed_post ∧
     kept = waiting_jobs (self (pass_before queue_ABC [job_A; job_B])) ++ kept_post ∧
     kept_post `sublist_of` []).
Proof.
  assert (Hw : waiting_jobs queue_ABC ≠ []) by discriminate.
  assert (Ha : GetAvailableNodes (power_controller queue_ABC) ≠ []) by discriminate.
  destruct (proj1 skip_ahead_scheduling _ _ queue_ABC Hw Ha)
    as (_ & _ & _ & _ & Hturn).
  split.
  - apply (Hturn [job_A] job_B [job_C]); [reflexivity|]. vm_compute. reflexivity.
  - apply (Hturn [job_A; job_B] job_C []); [reflexivity|]. vm_compute. discriminate.
Defined.

(** C1, the scenario as the specification states it.  The outcome it
    expects (A on nodes 0 and 1, B waiting, then C on node 2 ahead of B) is
    not the outcome of the run: B finds four available nodes and is started
    with A still running. *)
Lemma skip_ahead_scenario_counterexample :
  run [(0%float, JobSubmission job_A); (1%float, JobSubmission job_B)]
    (init 0 4 (idle_cluster 4)) = Returns scenario_AB ∧
  run [(0%float, JobSubmission job_A); (1%float, JobSubmission job_B);
       (2%float, JobSubmission job_C)]
    (init 0 4 (idle_cluster 4)) = Returns scenario_ABC ∧
  ¬ (view (running_jobs scenario_AB) = [(1, [0; 1])]%nat ∧
     map job_id (waiting_jobs scenario_AB) = [2]%nat ∧
     view (running_jobs scenario_ABC) = [(1, [0; 1]); (3, [2])]%nat ∧
     map job_id (waiting_jobs scenario_ABC) = [2]%nat).
Proof.
  split_and!; [vm_compute; reflexivity..|].
  intros (_ & Hw & _). vm_compute in Hw. discriminate Hw.
Qed.

(** ** Disjoint allocations *)

(** C2, as the specification states it, fails: after A and B are submitted
    to four idle nodes, both run and both hold node 0. *)
Lemma disjoint_allocation_counterexample :
  ∃ s ja jb,
    run [(0%float, JobSubmission job_A); (1%float, JobSubmission job_B)]
      (init 0 4 (idle_cluster 4)) = Returns s ∧
    ja ∈ running_jobs s ∧ jb ∈ running_jobs s ∧ job_id ja ≠ job_id jb ∧
    ¬ allocation ja ## allocation jb.
Proof.
  exists scenario_AB, (set_allocation job_A [0; 1]%nat),
    (set_allocation job_B [2; 3; 0]%nat).
  split_and!.
  - vm_compute. reflexivity.
  - apply list_elem_of_In. vm_compute. tauto.
  - apply list_elem_of_In. vm_compute. tauto.
  - discriminate.
  - intros Hd. apply (Hd 0%nat); cbn [allocation set_allocation];
      apply elem_of_list_to_set, list_elem_of_In; cbn [In]; tauto.
Qed.

(** C2, as the code has it.  In every state a run reaches, each running job
    was started in one of the batches handed to [execute_jobs], and within
    each batch the allocations are pairwise disjoint.  Jobs started by
    different passes can share nodes. *)
Theorem batch_allocations_disjoint {PC} `{PowerController PC}
    t0 nb (pc : PC) evs s :
  run evs (init t0 nb pc) = Returns s →
  (∀ j, j ∈ running_jobs s → ∃ batch, batch ∈ executed (calls s) ∧ j ∈ batch) ∧
  (∀ batch, batch ∈ executed (calls s) → pairwise_disjoint batch).
Proof.
  intros Hrun.
  eapply (run_invariant batches_ok); [|..|exact Hrun].
  - intros now ev s1 s2. apply batches_ok_step.
  - split; simpl.
    + by intros j Hj%elem_of_nil.
    + by intros batch Hb%elem_of_nil.
Qed.

Lemma batch_allocations_disjoint_witness :
  (∀ j, j ∈ running_jobs scenario_ABC →
     ∃ batch, batch ∈ executed (calls scenario_ABC) ∧ j ∈ batch) ∧
  (∀ batch, batch ∈ executed (calls scenario_ABC) → pairwise_disjoint batch).
Proof.
  apply (batch_allocations_disjoint 0%float 4 (idle_cluster 4)
           [(0%float, JobSubmission job_A); (1%float, JobSubmission job_B);
            (2%float, JobSubmission job_C)]).
  vm_compute. reflexivity.
Defined.

(** * Further properties of the scheduler *)

(** ** What a pass does to the queue *)

Lemma filter_all {A} (P : A → Prop) `{∀ x, Decision (P x)} (l : list A) :
  (∀ x, P x) → filter P l = l.
Proof.
  intros HP. induction l as [|x l IH]; [done|].
  rewrite filter_cons_True by done. by rewrite IH.
Qed.

Section PassQueue.
Context {PC : Type} `{PowerController PC}.
Implicit Type s : PowerControlScheduler PC.
Implicit Type p : Pass PC.

Lemma ident_set_allocation job l : ident (set_allocation job l) = ident job.
Proof. done. Qed.

Lemma pass_conserves q p :
  map ident (jobs_to_execute (foldl schedule_job p q) ++
             waiting_jobs (self (foldl schedule_job p q))) ≡ₚ
  map ident (jobs_to_execute p ++ waiting_jobs (self p)) ++ map ident q.
Proof.
  revert p. induction q as [|job q IH]; intros p; simpl.
  - by rewrite app_nil_r.
  - rewrite IH. destruct (fits_dec p job) as [Hfit|Hfit].
    + destruct (schedule_job_fits p job Hfit) as (_ & -> & _ & -> & _).
      rewrite !map_app. simpl. rewrite ident_set_allocation.
      rewrite <- !app_assoc. apply Permutation_app_head. simpl.
      by rewrite Permutation_middle.
    + rewrite schedule_job_waits by done. simpl.
      rewrite !map_app. simpl. rewrite <- !app_assoc. simpl. done.
Qed.

(** Jobs left waiting by the loop ask for more nodes than the pool has
    left. *)
Lemma pass_kept_too_big q p :
  (∀ j, j ∈ waiting_jobs (self p) → len (remaining_nodes p) < requested_resources j) →
  ∀ j, j ∈ waiting_jobs (self (foldl schedule_job p q)) →
       len (remaining_nodes (foldl schedule_job p q)) < requested_resources j.
Proof.
  revert p. induction q as [|job q IH]; intros p Hp; simpl; [done|].
  apply IH. destruct (fits_dec p job) as [Hfit|Hfit].
  - destruct (schedule_job_fits p job Hfit) as (_ & -> & _ & _ & -> & _).
    intros j Hj. specialize (Hp j Hj).
    pose proof (length_filter (λ n, n ∉ chosen p job) (remaining_nodes p)).
    unfold len in *. lia.
  - rewrite schedule_job_waits by done. simpl.
    intros j [Hj| ->%list_elem_of_singleton]%elem_of_app; [by apply Hp|].
    unfold fits in Hfit. lia.
Qed.

Lemma allocated_snoc jobs job :
  allocated (jobs ++ [job]) = allocated jobs ∪ allocation job.
Proof.
  unfold allocated. rewrite map_app, union_list_app_L. simpl.
  by rewrite (right_id_L ∅ (∪)).
Qed.

(** The pool of the loop is what the batch has left of the nodes the pass
    started with. *)
Lemma pass_pool (avail : list node) q p :
  remaining_nodes p = filter (λ n, n ∉ allocated (jobs_to_execute p)) avail →
  remaining_nodes (foldl schedule_job p q) =
    filter (λ n, n ∉ allocated (jobs_to_execute (foldl schedule_job p q))) avail.
Proof.
  revert p. induction q as [|job q IH]; intros p Hp; simpl; [done|].
  apply IH. destruct (fits_dec p job) as [Hfit|Hfit].
  - destruct (schedule_job_fits p job Hfit) as (_ & _ & _ & -> & -> & _).
    rewrite Hp, list_filter_filter. apply list_filter_iff. intros n.
    rewrite allocated_snoc. simpl.
    rewrite not_elem_of_union, elem_of_list_to_set. tauto.
  - by rewrite schedule_job_waits.
Qed.

Lemma foldl_add_call_calls s l :
  calls (foldl (λ s n, add_call (pc_GetNodeJobCount n) s) s l) =
  calls s ++ map pc_GetNodeJobCount l.
Proof.
  revert s. induction l as [|n l IH]; intros s; simpl.
  - by rewrite app_nil_r.
  - rewrite IH. simpl. by rewrite <- app_assoc.
Qed.

Lemma pass_none_fits q p :
  (∀ j, j ∈ q → len (remaining_nodes p) < requested_resources j) →
  foldl schedule_job p q =
    mkPass (set_waiting_jobs (waiting_jobs (self p) ++ q) (self p))
      (node_loads p) (remaining_nodes p) (jobs_to_execute p).
Proof.
  revert p. induction q as [|job q IH]; intros p Hq; simpl.
  - rewrite app_nil_r. by destruct p as [[] ? ? ?].
  - rewrite schedule_job_waits.
    2:{ unfold fits. assert (Hjob : job ∈ job :: q) by apply list_elem_of_here.
        specialize (Hq job Hjob). lia. }
    rewrite IH; simpl.
    + by rewrite <- app_assoc.
    + intros j Hj. apply Hq. by apply list_elem_of_further.
Qed.
Lemma try_schedule_jobs_conserves s s' :
  try_schedule_jobs s = Returns s' →
  ∃ placed,
    running_jobs s' = running_jobs s ++ placed ∧
    map ident (placed ++ waiting_jobs s') ≡ₚ map ident (waiting_jobs s).
Proof.
  destruct (try_schedule_jobs_cases s) as [[Hw ->]|[(_ & _ & ->)|(_ & _ & ->)]].
  - intros [= <-]. exists []. by rewrite app_nil_r.
  - discriminate.
  - intros [= <-]. exists (jobs_to_execute (the_pass s)).
    destruct (the_pass_effect s) as (_ & Hr & _). split; [exact Hr|].
    assert (Hwait :
      waiting_jobs (if truthy (jobs_to_execute (the_pass s))
                    then add_call (bs_execute_jobs (jobs_to_execute (the_pass s)))
                           (self (the_pass s))
                    else self (the_pass s)) = waiting_jobs (self (the_pass s))).
    { by destruct (truthy _). }
    rewrite Hwait. unfold the_pass. cbv zeta. rewrite pass_conserves.
    destruct (start_pass_facts (add_call pc_GetAvailableNodes s)
                (GetAvailableNodes (power_controller s)))
      as (_ & -> & _ & _ & _ & ->).
    done.
Qed.

End PassQueue.

(** X1. A pass that returns neither loses nor duplicates a job: the jobs it
    starts, followed by the jobs it leaves waiting, are the jobs of the old
    waiting queue with the number of nodes each asked for, up to order; the
    running list grows by exactly the jobs started. *)
Theorem pass_conserves_jobs {PC} `{PowerController PC}
    (s s' : PowerControlScheduler PC) :
  try_schedule_jobs s = Returns s' →
  ∃ placed,
    running_jobs s' = running_jobs s ++ placed ∧
    map ident (placed ++ waiting_jobs s') ≡ₚ map ident (waiting_jobs s).
Proof. apply try_schedule_jobs_conserves. Qed.

Lemma pass_conserves_jobs_witness :
  ∃ placed,
    running_jobs (final (try_schedule_jobs queue_ABC)) =
      running_jobs queue_ABC ++ placed ∧
    map ident (placed ++ waiting_jobs (final (try_schedule_jobs queue_ABC))) ≡ₚ
      map ident (waiting_jobs queue_ABC).
Proof.
  apply (pass_conserves_jobs queue_ABC (final (try_schedule_jobs queue_ABC))).
  vm_compute. reflexivity.
Defined.

(** X2. When a pass over a non-empty queue ends, the pool holds the
    available nodes that no job of the batch was given, and every job left
    waiting asks for more nodes than the pool still holds: no job that could
    be started from what is left stays in the queue. *)
Theorem pass_leaves_no_fitting_job {PC} `{PowerController PC}
    (s : PowerControlScheduler PC) :
  waiting_jobs s ≠ [] → GetAvailableNodes (power_controller s) ≠ [] →
  ∃ s' placed,
    try_schedule_jobs s = Returns s' ∧
    running_jobs s' = running_jobs s ++ placed ∧
    let pool :=
      filter (λ n, n ∉ allocated placed) (GetAvailableNodes (power_controller s)) in
    ∀ j, j ∈ waiting_jobs s' → len pool < requested_resources j.
Proof.
  intros Hw Ha. rewrite (try_schedule_jobs_runs s Hw Ha).
  eexists _, (jobs_to_execute (the_pass s)). split; [done|].
  destruct (the_pass_effect s) as (_ & Hr & _). split; [exact Hr|].
  intros pool j.
  assert (Hwait :
    waiting_jobs (if truthy (jobs_to_execute (the_pass s))
                  then add_call (bs_execute_jobs (jobs_to_execute (the_pass s)))
                         (self (the_pass s))
                  else self (the_pass s)) = waiting_jobs (self (the_pass s))).
  { by destruct (truthy _). }
  rewrite Hwait. unfold pool, the_pass. cbv zeta.
  rewrite <- (pass_pool (GetAvailableNodes (power_controller s)) (waiting_jobs s)
                (start_pass (add_call pc_GetAvailableNodes s)
                   (GetAvailableNodes (power_controller s)))).
  - apply pass_kept_too_big. simpl. by intros j' Hj'%elem_of_nil.
  - simpl. symmetry. apply filter_all. intros n. unfold allocated. simpl.
    apply not_elem_of_empty.
Qed.

Lemma pass_leaves_no_fitting_job_witness :
  ∃ s' placed,
    try_schedule_jobs queue_ABC = Returns s' ∧
    running_jobs s' = running_jobs queue_ABC ++ placed ∧
    ∀ j, j ∈ waiting_jobs s' →
      len (filter (λ n, n ∉ allocated placed)
             (GetAvailableNodes (power_controller queue_ABC))) <
      requested_resources j.
Proof.
  apply (pass_leaves_no_fitting_job queue_ABC); discriminate.
Defined.

(** X3. When the queue is not empty, some node is available and every
    waiting job asks for more nodes than are available, the pass returns
    after its queries only: the waiting queue, the running list and the
    controller are as before, no [AddJobToNode] is sent and [execute_jobs]
    is not called. *)
Theorem pass_without_fit {PC} `{PowerController PC}
    (s : PowerControlScheduler PC) :
  waiting_jobs s ≠ [] → GetAvailableNodes (power_controller s) ≠ [] →
  (∀ j, j ∈ waiting_jobs s →
     len (GetAvailableNodes (power_controller s)) < requested_resources j) →
  ∃ s', try_schedule_jobs s = Returns s' ∧
    waiting_jobs s' = waiting_jobs s ∧ running_jobs s' = running_jobs s ∧
    power_controller s' = power_controller s ∧ settings s' = settings s ∧
    calls s' =
      calls s ++ pc_GetAvailableNodes ::
      map pc_GetNodeJobCount (GetAvailableNodes (power_controller s)).
Proof.
  intros Hw Ha Hbig. rewrite (try_schedule_jobs_runs s Hw Ha).
  unfold the_pass. cbv zeta. rewrite pass_none_fits by done.
  simpl. eexists. split; [done|]. simpl.
  destruct (foldl_add_call_GetNodeJobCount (add_call pc_GetAvailableNodes s)
              (GetAvailableNodes (power_controller s))) as (HS & _ & Hr & Hp & _).
  rewrite foldl_add_call_calls. simpl. rewrite <- app_assoc. split_and!; try done.
Qed.

Lemma pass_without_fit_witness :
  let s := set_waiting_jobs [job_D] (init 0 4 (idle_cluster 4)) in
  ∃ s', try_schedule_jobs s = Returns s' ∧
    waiting_jobs s' = waiting_jobs s ∧ running_jobs s' = running_jobs s ∧
    power_controller s' = power_controller s ∧ settings s' = settings s ∧
    calls s' =
      calls s ++ pc_GetAvailableNodes ::
      map pc_GetNodeJobCount (GetAvailableNodes (power_controller s)).
Proof.
  apply (pass_without_fit (set_waiting_jobs [job_D] (init 0 4 (idle_cluster 4)))).
  - discriminate.
  - discriminate.
  - intros j Hj%list_elem_of_singleton. subst j. vm_compute. reflexivity.
Defined.

(** ** Loads, allocations and notifications of a pass *)

Section PassLoads.
Context {PC : Type} `{PowerController PC}.
Implicit Type s : PowerControlScheduler PC.
Implicit Type p : Pass PC.

Lemma foldl_insert_lookup (f : node → Z) (m : gmap node Z) l n :
  n ∈ l ∨ m !! n = Some (f n) →
  foldl (λ m n, <[n := f n]> m) m l !! n = Some (f n).
Proof.
  revert m. induction l as [|x l IH]; intros m; simpl.
  - intros [Hn%elem_of_nil|Hn]; done.
  - intros Hn. apply IH. destruct (decide (x = n)) as [->|Hne].
    + right. by rewrite lookup_insert_eq.
    + destruct Hn as [Hn|Hn].
      * apply elem_of_cons in Hn as [->|Hn]; [done|by left].
      * right. by rewrite lookup_insert_ne.
Qed.

Lemma foldl_bump_other (m : gmap node Z) l n :
  n ∉ l →
  foldl (λ (m : gmap node Z) n, <[n := m !!! n + 1]> m) m l !! n = m !! n.
Proof.
  revert m. induction l as [|x l IH]; intros m Hn; simpl; [done|].
  apply not_elem_of_cons in Hn as [Hne Hn].
  rewrite IH by done. by rewrite lookup_insert_ne.
Qed.

Lemma schedule_job_initial_loads (f : node → Z) p job :
  (∀ n, n ∈ remaining_nodes p → node_loads p !! n = Some (f n)) →
  ∀ n, n ∈ remaining_nodes (schedule_job p job) →
       node_loads (schedule_job p job) !! n = Some (f n).
Proof.
  intros Hp n. unfold schedule_job. case_bool_decide; simpl.
  - intros [Hout Hn]%list_elem_of_filter.
    rewrite foldl_add_job_to_node_loads. simpl.
    rewrite foldl_bump_other by done. by apply Hp.
  - apply Hp.
Qed.

Lemma pass_before_initial_loads s pre n :
  n ∈ remaining_nodes (pass_before s pre) →
  node_loads (pass_before s pre) !! n =
    Some (GetNodeJobCount (power_controller s) n).
Proof.
  unfold pass_before. revert n.
  induction pre as [|job pre IH] using rev_ind; intros n.
  - simpl. intros Hn.
    apply (foldl_insert_lookup (GetNodeJobCount (power_controller s))). by left.
  - rewrite foldl_app. simpl.
    by apply (schedule_job_initial_loads (GetNodeJobCount (power_controller s))).
Qed.

Lemma select_nodes_NoDup loads remaining k :
  NoDup remaining → NoDup (select_nodes loads remaining k).
Proof.
  intros Hnd. unfold select_nodes.
  destruct (slice_to_prefix (sorted (load_key loads) remaining) k) as [n ->].
  eapply sublist_NoDup; [|apply sublist_take].
  by rewrite sorted_Permutation.
Qed.

Lemma select_nodes_length loads remaining k :
  0 ≤ k ≤ len remaining → len (select_nodes loads remaining k) = k.
Proof.
  intros Hk. unfold select_nodes. rewrite slice_to_nonneg by lia.
  unfold len in *. rewrite length_take, sorted_length. lia.
Qed.

Lemma schedule_job_NoDup p job :
  NoDup (remaining_nodes p) → NoDup (remaining_nodes (schedule_job p job)).
Proof.
  intros Hnd. unfold schedule_job. case_bool_decide; simpl; [|done].
  by apply NoDup_filter.
Qed.

Lemma pass_full_allocations q p :
  NoDup (remaining_nodes p) →
  (∀ j, j ∈ jobs_to_execute p → full_allocation j) →
  ∀ j, j ∈ jobs_to_execute (foldl schedule_job p q) → full_allocation j.
Proof.
  revert p. induction q as [|job q IH]; intros p Hnd Hp; simpl; [done|].
  apply IH; [by apply schedule_job_NoDup|].
  destruct (fits_dec p job) as [Hfit|Hfit].
  - destruct (schedule_job_fits p job Hfit) as (_ & _ & _ & -> & _).
    intros j [Hj| ->%list_elem_of_singleton]%elem_of_app; [by apply Hp|].
    intros Hk. simpl in *.
    rewrite size_list_to_set by by apply select_nodes_NoDup.
    apply select_nodes_length. unfold fits in Hfit. lia.
  - by rewrite schedule_job_waits.
Qed.

Lemma foldl_add_job_to_node_pc st l :
  power_controller (foldl add_job_to_node st l).1 =
    foldl AddJobToNode (power_controller st.1) l.
Proof. revert st. induction l as [|n l IH]; intros st; simpl; [done|]. by rewrite IH. Qed.

Lemma schedule_job_pc p job :
  power_controller (self (schedule_job p job)) =
    if bool_decide (requested_resources job ≤ len (remaining_nodes p))
    then foldl AddJobToNode (power_controller (self p)) (chosen p job)
    else power_controller (self p).
Proof.
  unfold schedule_job. case_bool_decide; simpl; [|done].
  by rewrite foldl_add_job_to_node_pc.
Qed.

(** The notifications of the loop: [adds] lists the nodes for which
    [AddJobToNode] was called, in call order. *)
Lemma pass_notifications q p :
  ∃ adds,
    calls (self (foldl schedule_job p q)) =
      calls (self p) ++ map pc_AddJobToNode adds ∧
    power_controller (self (foldl schedule_job p q)) =
      foldl AddJobToNode (power_controller (self p)) adds ∧
    allocated (jobs_to_execute (foldl schedule_job p q)) =
      allocated (jobs_to_execute p) ∪ list_to_set adds ∧
    (∀ n, n ∈ adds → n ∈ remaining_nodes p) ∧
    (NoDup (remaining_nodes p) → NoDup adds).
Proof.
  revert p. induction q as [|job q IH]; intros p; simpl.
  - exists []. simpl. rewrite app_nil_r, (right_id_L ∅ (∪)). split_and!; try done.
    + by intros n Hn%elem_of_nil.
    + intros _. constructor.
  - destruct (IH (schedule_job p job)) as (adds & -> & -> & -> & Hin & Hnd).
    rewrite schedule_job_pc. destruct (fits_dec p job) as [Hfit|Hfit].
    + rewrite bool_decide_true by done.
      destruct (schedule_job_fits p job Hfit) as (_ & _ & _ & Hj & Hr & ->).
      rewrite Hj, Hr in *. exists (chosen p job ++ adds).
      rewrite map_app, foldl_app, <- app_assoc, allocated_snoc, list_to_set_app_L.
      simpl. rewrite (assoc_L (∪)). split_and!; try done.
      * intros n [Hn|Hn]%elem_of_app.
        -- by eapply select_nodes_elem_of.
        -- by apply Hin, list_elem_of_filter in Hn as [_ ?].
      * intros Hp. apply NoDup_app. split_and!.
        -- by apply select_nodes_NoDup.
        -- intros n Hn Hn'. by apply Hin, list_elem_of_filter in Hn' as [Hout _].
        -- apply Hnd. by apply NoDup_filter.
    + rewrite bool_decide_false by done. rewrite schedule_job_waits in * by done.
      simpl in *. by exists adds.
Qed.
End PassLoads.

(** X4. A job that is placed gets the least loaded nodes of the pool, the
    load of a node being the job count that the controller reported at the
    start of the pass: no node left in the pool has a smaller count than a
    node the job was given. *)
Theorem least_loaded_chosen {PC} `{PowerController PC}
    (s : PowerControlScheduler PC) pre job :
  let p := pass_before s pre in
  fits p job →
  jobs_to_execute (schedule_job p job) =
    jobs_to_execute p ++ [set_allocation job (chosen p job)] ∧
  ∀ a b, a ∈ chosen p job → b ∈ remaining_nodes p → b ∉ chosen p job →
    GetNodeJobCount (power_controller s) a ≤ GetNodeJobCount (power_controller s) b.
Proof.
  intros p Hfit. split.
  - by destruct (schedule_job_fits p job Hfit) as (_ & _ & _ & ? & _).
  - intros a b Ha Hb Hout.
    assert (Ha' : a ∈ remaining_nodes p) by by eapply select_nodes_elem_of.
    pose proof (pass_before_initial_loads s pre a Ha') as Hla.
    pose proof (pass_before_initial_loads s pre b Hb) as Hlb.
    fold p in Hla, Hlb.
    destruct (decide (GetNodeJobCount (power_controller s) a ≤
                      GetNodeJobCount (power_controller s) b)) as [|Hgt]; [done|].
    exfalso. apply Hout. eapply select_nodes_lower; [exact Hb|exact Ha|].
    unfold key_le, load_key. cbn [fst snd].
    rewrite !lookup_total_alt, Hla, Hlb. simpl. lia.
Qed.

Lemma least_loaded_chosen_witness :
  let p := pass_before scenario_AB [] in
  jobs_to_execute (schedule_job p job_C) =
    jobs_to_execute p ++ [set_allocation job_C (chosen p job_C)] ∧
  ∀ a b, a ∈ chosen p job_C → b ∈ remaining_nodes p → b ∉ chosen p job_C →
    GetNodeJobCount (power_controller scenario_AB) a ≤
    GetNodeJobCount (power_controller scenario_AB) b.
Proof.
  apply (least_loaded_chosen scenario_AB [] job_C).
  vm_compute. discriminate.
Defined.

(** X5. Within one pass the load by which a node of the pool is sorted is
    the job count the controller reported for it at the start of the pass:
    the increments of [node_loads] only reach nodes that have left the
    pool. *)
Theorem pool_loads_are_initial {PC} `{PowerController PC}
    (s : PowerControlScheduler PC) pre n :
  n ∈ remaining_nodes (pass_before s pre) →
  node_loads (pass_before s pre) !! n =
    Some (GetNodeJobCount (power_controller s) n).
Proof. apply pass_before_initial_loads. Qed.

Lemma pool_loads_are_initial_witness :
  node_loads (pass_before queue_ABC [job_A]) !! 2%nat =
    Some (GetNodeJobCount (power_controller queue_ABC) 2%nat).
Proof.
  apply (pool_loads_are_initial queue_ABC [job_A] 2%nat).
  apply list_elem_of_In. vm_compute. tauto.
Defined.

(** X6. When the controller reports every available node once, each job
    that a pass starts with a non-negative request is given exactly
    [requested_resources] nodes. *)
Theorem allocation_size {PC} `{PowerController PC}
    (s s' : PowerControlScheduler PC) :
  NoDup (GetAvailableNodes (power_controller s)) →
  try_schedule_jobs s = Returns s' →
  ∃ placed,
    running_jobs s' = running_jobs s ++ placed ∧
    ∀ j, j ∈ placed → 0 ≤ requested_resources j →
      Z.of_nat (size (allocation j)) = requested_resources j.
Proof.
  intros Hnd.
  destruct (try_schedule_jobs_cases s) as [[Hw ->]|[(_ & _ & ->)|(_ & _ & ->)]].
  - intros [= <-]. exists []. rewrite app_nil_r. split; [done|].
    by intros j Hj%elem_of_nil.
  - discriminate.
  - intros [= <-]. exists (jobs_to_execute (the_pass s)).
    destruct (the_pass_effect s) as (_ & Hr & _). split; [exact Hr|].
    intros j Hj. unfold the_pass in Hj. cbv zeta in Hj.
    eapply pass_full_allocations in Hj; [exact Hj|done|].
    simpl. by intros j' Hj'%elem_of_nil.
Qed.

Lemma allocation_size_witness :
  ∃ placed,
    running_jobs (final (try_schedule_jobs queue_ABC)) =
      running_jobs queue_ABC ++ placed ∧
    ∀ j, j ∈ placed → 0 ≤ requested_resources j →
      Z.of_nat (size (allocation j)) = requested_resources j.
Proof.
  apply (allocation_size queue_ABC (final (try_schedule_jobs queue_ABC))).
  - vm_compute. repeat constructor; rewrite list_elem_of_In; simpl; lia.
  - vm_compute. reflexivity.
Defined.

(** X7. A pass over a non-empty queue with some node available makes these
    calls, in this order: [GetAvailableNodes], [GetNodeJobCount] for each
    available node, [AddJobToNode] for the nodes given to the jobs it starts,
    and last, only when it starts a job, one [execute_jobs] with the batch.
    The controller it leaves is the old one after those [AddJobToNode] calls,
    the nodes notified are the nodes allocated in the batch, and none is
    notified twice when the available nodes are reported once each. *)
Theorem pass_notifies_allocations {PC} `{PowerController PC}
    (s : PowerControlScheduler PC) :
  waiting_jobs s ≠ [] → GetAvailableNodes (power_controller s) ≠ [] →
  ∃ s' placed adds,
    try_schedule_jobs s = Returns s' ∧
    running_jobs s' = running_jobs s ++ placed ∧
    calls s' =
      calls s ++ pc_GetAvailableNodes ::
      map pc_GetNodeJobCount (GetAvailableNodes (power_controller s)) ++
      map pc_AddJobToNode adds ++
      (if truthy placed then [bs_execute_jobs placed] else []) ∧
    power_controller s' = foldl AddJobToNode (power_controller s) adds ∧
    list_to_set adds = allocated placed ∧
    (NoDup (GetAvailableNodes (power_controller s)) → NoDup adds).
Proof.
  intros Hw Ha. rewrite (try_schedule_jobs_runs s Hw Ha).
  destruct (the_pass_effect s) as (_ & Hr & _).
  unfold the_pass in *. cbv zeta in *.
  set (avail := GetAvailableNodes (power_controller s)) in *.
  set (p0 := start_pass (add_call pc_GetAvailableNodes s) avail) in *.
  destruct (pass_notifications (waiting_jobs s) p0)
    as (adds & Hc & Hp & Hal & _ & Hnd).
  set (p := foldl schedule_job p0 (waiting_jobs s)) in *.
  assert (Hc0 : calls (self p0) =
                calls s ++ pc_GetAvailableNodes :: map pc_GetNodeJobCount avail).
  { unfold p0, start_pass. simpl. rewrite foldl_add_call_calls. simpl.
    by rewrite <- app_assoc. }
  assert (Hp0 : power_controller (self p0) = power_controller s).
  { unfold p0, start_pass. simpl.
    by destruct (foldl_add_call_GetNodeJobCount (add_call pc_GetAvailableNodes s)
                   avail) as (_ & _ & _ & -> & _). }
  rewrite Hc0 in Hc. rewrite Hp0 in Hp.
  eexists _, (jobs_to_execute p), adds. split; [done|].
  assert (Hset : list_to_set adds = allocated (jobs_to_execute p)).
  { rewrite Hal. unfold allocated. simpl. by rewrite (left_id_L ∅ (∪)). }
  destruct (jobs_to_execute p) as [|j0 placed] eqn:Hj; simpl truthy; cbv iota.
  - rewrite app_nil_r in Hr. rewrite app_nil_r.
    rewrite Hc, <- app_assoc. split_and!; try done.
    by rewrite app_nil_r.
  - simpl. rewrite Hc, <- !app_assoc. simpl. split_and!; try done.
Qed.

Lemma pass_notifies_allocations_witness :
  ∃ s' placed adds,
    try_schedule_jobs queue_ABC = Returns s' ∧
    running_jobs s' = running_jobs queue_ABC ++ placed ∧
    calls s' =
      calls queue_ABC ++ pc_GetAvailableNodes ::
      map pc_GetNodeJobCount (GetAvailableNodes (power_controller queue_ABC)) ++
      map pc_AddJobToNode adds ++
      (if truthy placed then [bs_execute_jobs placed] else []) ∧
    power_controller s' = foldl AddJobToNode (power_controller queue_ABC) adds ∧
    list_to_set adds = allocated placed ∧
    (NoDup (GetAvailableNodes (power_controller queue_ABC)) → NoDup adds).
Proof.
  apply (pass_notifies_allocations queue_ABC); discriminate.
Defined.

(** ** Completion, power-state changes and aborted runs *)

Lemma list_remove_job_split job jobs :
  job_in job jobs = true →
  ∃ l1 j l2,
    jobs = l1 ++ j :: l2 ∧ job_id j = job_id job ∧
    (job_id job ∉ map job_id l1) ∧ list_remove_job job jobs = l1 ++ l2.
Proof.
  unfold job_in. intros Hin%bool_decide_eq_true.
  induction jobs as [|j jobs IH]; simpl in *; [by apply elem_of_nil in Hin|].
  case_bool_decide as Hj.
  - exists [], j, jobs. split_and!; try done. simpl. apply not_elem_of_nil.
  - apply elem_of_cons in Hin as [Hin|Hin]; [congruence|].
    destruct (IH Hin) as (l1 & j' & l2 & -> & Hid & Hout & ->).
    exists (j :: l1), j', l2. split_and!; try done. simpl.
    apply not_elem_of_cons. split; [congruence|done].
Qed.

Lemma procset_iter_facts (X : gset node) :
  Sorted (≤)%nat (procset_iter X) ∧ NoDup (procset_iter X) ∧
  ∀ n, n ∈ procset_iter X ↔ n ∈ X.
Proof.
  unfold procset_iter. split_and!.
  - apply Sorted_merge_sort. apply _.
  - rewrite merge_sort_Permutation. apply NoDup_elements.
  - intros n. rewrite merge_sort_Permutation. apply elem_of_elements.
Qed.

Lemma submseteq_NoDup {A} (l k : list A) : l ⊆+ k → NoDup k → NoDup l.
Proof.
  intros (l' & Hsub & Hperm)%submseteq_sublist_l Hk.
  eapply sublist_NoDup; [|exact Hsub]. by rewrite Hperm.
Qed.

Section EventFacts.
Context {PC : Type} `{PowerController PC}.
Implicit Type s : PowerControlScheduler PC.

Lemma foldl_remove_job_from_node_pc s l :
  power_controller (foldl remove_job_from_node s l) =
    foldl RemoveJobFromNode (power_controller s) l.
Proof. revert s. induction l as [|n l IH]; intros s; simpl; [done|]. by rewrite IH. Qed.

Lemma onMachinePStateChanged_calls s machines new_pstate :
  let s' :=
    foldl (λ s machine,
             call_pc (λ pc, HandleStateTransitionComplete pc machine new_pstate)
               (pc_HandleStateTransitionComplete machine new_pstate) s)
      s machines in
  calls s' =
    calls s ++ map (λ m, pc_HandleStateTransitionComplete m new_pstate) machines ∧
  power_controller s' =
    foldl (λ pc m, HandleStateTransitionComplete pc m new_pstate)
      (power_controller s) machines.
Proof.
  revert s. induction machines as [|m machines IH]; intros s; simpl.
  - by rewrite app_nil_r.
  - destruct (IH (call_pc (λ pc, HandleStateTransitionComplete pc m new_pstate)
                    (pc_HandleStateTransitionComplete m new_pstate) s)) as [-> ->].
    simpl. by rewrite <- app_assoc.
Qed.


Lemma conserves_quiet ev s s' :
  admitted (bs_nb_resources s) ev = [] →
  still_running ev (running_jobs s) = running_jobs s →
  waiting_jobs s' = waiting_jobs s → running_jobs s' = running_jobs s →
  map ident (waiting_jobs s' ++ running_jobs s') ≡ₚ
  map ident (waiting_jobs s ++ admitted (bs_nb_resources s) ev ++
             still_running ev (running_jobs s)).
Proof. intros -> -> -> ->. done. Qed.

Lemma conserves_pass s1 s' (queue running : list Job) :
  waiting_jobs s1 = queue → running_jobs s1 = running →
  try_schedule_jobs s1 = Returns s' →
  map ident (waiting_jobs s' ++ running_jobs s') ≡ₚ map ident (queue ++ running).
Proof.
  intros <- <- (placed & -> & Hperm)%try_schedule_jobs_conserves.
  rewrite !map_app in *. rewrite <- Hperm.
  rewrite (Permutation_app_comm (map ident placed)).
  rewrite <- !app_assoc. apply Permutation_app_head, Permutation_app_comm.
Qed.

Lemma handle_conserves now ev s s' :
  handle now ev s = Returns s' →
  map ident (waiting_jobs s' ++ running_jobs s') ≡ₚ
  map ident (waiting_jobs s ++ admitted (bs_nb_resources s) ev ++
             still_running ev (running_jobs s)).
Proof.
  destruct ev as [|job|job|job jobs|ts job msg|machines new_pstate|e| |];
    unfold handle; cbv zeta.
  - rewrite onRequestedCall_cases.
    destruct (recorded_facts (set_bs_time now s))
      as (_ & _ & _ & _ & Hw & Hr & _).
    destruct (_ && _); intros [= <-]; by apply conserves_quiet.
  - unfold onJobSubmission. cbv zeta. simpl bs_nb_resources. simpl admitted.
    case_bool_decide as Hbig.
    + intros [= <-]. done.
    + intros Hp. simpl still_running. rewrite (assoc_L (++)).
      by eapply conserves_pass; [..|exact Hp].
  - unfold onJobCompletion. cbv zeta. simpl admitted. simpl still_running.
    set (s1 := if job_in job _ then _ else _).
    destruct (foldl_remove_job_from_node s1 (procset_iter (allocation job)))
      as (_ & Hw & Hr & _).
    intros Hp. eapply conserves_pass; [..|exact Hp].
    + rewrite Hw. unfold s1. by destruct (job_in _ _).
    + rewrite Hr. unfold s1. by destruct (job_in _ _).
  - discriminate.
  - intros [= <-]. by apply conserves_quiet.
  - destruct (onMachinePStateChanged_effect (set_bs_time now s) machines new_pstate)
      as (s2 & -> & _ & Hw & Hr & _).
    intros [= <-]. by apply conserves_quiet.
  - unfold onReportEnergyConsumed. cbv zeta.
    intros [= <-]. apply conserves_quiet; try done; simpl;
      by repeat destruct (PrimFloat.ltb _ _).
  - discriminate.
  - intros [= <-]. by apply conserves_quiet.
Qed.

Lemma handle_ids now ev s s' :
  handle now ev s = Returns s' →
  map job_id (waiting_jobs s' ++ running_jobs s') ⊆+
  map job_id (waiting_jobs s ++ running_jobs s) ++ submitted_ids [(now, ev)].
Proof.
  intros Hh%handle_conserves.
  assert (Hids : ∀ l, map job_id l = map fst (map ident l)).
  { intros l. rewrite map_map. done. }
  rewrite Hids, Hh, <- Hids. rewrite !map_app, <- app_assoc.
  apply submseteq_skips_l.
  rewrite (Permutation_app_comm (map job_id (admitted _ _))).
  apply submseteq_app.
  - apply sublist_submseteq. apply (fmap_sublist job_id).
    destruct ev; simpl; try done.
    destruct (job_in _ _); [apply list_remove_job_sublist|done].
  - destruct ev; simpl; try done. case_bool_decide; [apply submseteq_nil_l|done].
Qed.
End EventFacts.

(** X8. When the job of a completion event is in the running list, the
    handler removes the first entry with that job's identity and keeps the
    others in order, calls [RemoveJobFromNode] once for each node of the
    job's allocation, in ascending order, and only then runs the scheduling
    pass, on the controller that these calls leave: the nodes the job gives
    back are seen by that pass. *)
Theorem completion_of_running_job {PC} `{PowerController PC}
    (s : PowerControlScheduler PC) job :
  job_in job (running_jobs s) = true →
  let freed := procset_iter (allocation job) in
  (Sorted (≤)%nat freed ∧ NoDup freed ∧ ∀ n, n ∈ freed ↔ n ∈ allocation job) ∧
  ∃ l1 j l2 s2,
    running_jobs s = l1 ++ j :: l2 ∧ job_id j = job_id job ∧
    (job_id job ∉ map job_id l1) ∧
    onJobCompletion s job = try_schedule_jobs s2 ∧
    running_jobs s2 = l1 ++ l2 ∧ waiting_jobs s2 = waiting_jobs s ∧
    settings s2 = settings s ∧
    calls s2 = calls s ++ map pc_RemoveJobFromNode freed ∧
    power_controller s2 = foldl RemoveJobFromNode (power_controller s) freed.
Proof.
  intros Hin freed. split; [apply procset_iter_facts|].
  destruct (list_remove_job_split job (running_jobs s) Hin)
    as (l1 & j & l2 & Hr & Hid & Hout & Hrem).
  exists l1, j, l2,
    (foldl remove_job_from_node
       (set_running_jobs (list_remove_job job (running_jobs s)) s) freed).
  destruct (foldl_remove_job_from_node
              (set_running_jobs (list_remove_job job (running_jobs s)) s) freed)
    as (HS & Hw & Hr' & Hc).
  split_and!; try done.
  - unfold onJobCompletion. cbv zeta. by rewrite Hin.
  - by rewrite Hr'.
  - by rewrite foldl_remove_job_from_node_pc.
Qed.

Lemma completion_of_running_job_witness :
  let s := scenario_ABC in
  let job := set_allocation job_B [0; 2; 3]%nat in
  let freed := procset_iter (allocation job) in
  (Sorted (≤)%nat freed ∧ NoDup freed ∧ ∀ n, n ∈ freed ↔ n ∈ allocation job) ∧
  ∃ l1 j l2 s2,
    running_jobs s = l1 ++ j :: l2 ∧ job_id j = job_id job ∧
    (job_id job ∉ map job_id l1) ∧
    onJobCompletion s job = try_schedule_jobs s2 ∧
    running_jobs s2 = l1 ++ l2 ∧ waiting_jobs s2 = waiting_jobs s ∧
    settings s2 = settings s ∧
    calls s2 = calls s ++ map pc_RemoveJobFromNode freed ∧
    power_controller s2 = foldl RemoveJobFromNode (power_controller s) freed.
Proof.
  apply (completion_of_running_job scenario_ABC (set_allocation job_B [0; 2; 3]%nat)).
  vm_compute. reflexivity.
Defined.

(** X9. A power-state change event never fails and never schedules: the
    handler calls [HandleStateTransitionComplete] once for each machine, in
    the order given, and changes nothing else.  Jobs that are waiting stay
    in the queue even when the event makes nodes available. *)
Theorem pstate_change_only_notifies {PC} `{PowerController PC}
    (s : PowerControlScheduler PC) machines new_pstate :
  ∃ s', onMachinePStateChanged s machines new_pstate = Returns s' ∧
    settings s' = settings s ∧
    waiting_jobs s' = waiting_jobs s ∧ running_jobs s' = running_jobs s ∧
    calls s' =
      calls s ++ map (λ m, pc_HandleStateTransitionComplete m new_pstate) machines ∧
    power_controller s' =
      foldl (λ pc m, HandleStateTransitionComplete pc m new_pstate)
        (power_controller s) machines.
Proof.
  destruct (onMachinePStateChanged_effect s machines new_pstate)
    as (s' & Hs' & HS & Hw & Hr & _).
  exists s'. split_and!; try done.
  - unfold onMachinePStateChanged in Hs'. injection Hs' as <-.
    apply onMachinePStateChanged_calls.
  - unfold onMachinePStateChanged in Hs'. injection Hs' as <-.
    apply onMachinePStateChanged_calls.
Qed.



(** X11. Handling an event that returns conserves the jobs: the waiting
    queue and the running list afterwards hold, up to order and each with
    the number of nodes it asked for, the jobs waiting before, the job the
    event admits, and the jobs running before less the first entry of a
    completed job.  Nothing else enters or leaves the two lists. *)
Theorem events_conserve_jobs {PC} `{PowerController PC}
    now ev (s s' : PowerControlScheduler PC) :
  handle now ev s = Returns s' →
  map ident (waiting_jobs s' ++ running_jobs s') ≡ₚ
  map ident (waiting_jobs s ++ admitted (bs_nb_resources s) ev ++
             still_running ev (running_jobs s)).
Proof. apply handle_conserves. Qed.

Lemma events_conserve_jobs_witness :
  let s := scenario_ABC in
  let ev := JobCompletion (set_allocation job_B [0; 2; 3]%nat) in
  map ident (waiting_jobs (final (handle 9 ev s)) ++
             running_jobs (final (handle 9 ev s))) ≡ₚ
  map ident (waiting_jobs s ++ admitted (bs_nb_resources s) ev ++
             still_running ev (running_jobs s)).
Proof.
  apply (events_conserve_jobs 9%float
           (JobCompletion (set_allocation job_B [0; 2; 3]%nat)) scenario_ABC).
  vm_compute. reflexivity.
Defined.

(** X12. When the engine submits every job id at most once, no job is ever
    in the waiting queue and in the running list at once, nor twice in
    either: in every state a run reaches the ids of the queued and running
    jobs are pairwise distinct. *)
Theorem no_job_twice {PC} `{PowerController PC} t0 nb (pc : PC) evs s :
  NoDup (submitted_ids evs) →
  run evs (init t0 nb pc) = Returns s →
  NoDup (map job_id (waiting_jobs s ++ running_jobs s)).
Proof.
  assert (Hgen : ∀ evs (s0 s1 : PowerControlScheduler PC),
            NoDup (map job_id (waiting_jobs s0 ++ running_jobs s0) ++ submitted_ids evs) →
            run evs s0 = Returns s1 →
            NoDup (map job_id (waiting_jobs s1 ++ running_jobs s1))).
  { clear. intros evs. induction evs as [|[now ev] evs IH]; intros s0 s1 Hnd; simpl.
    - intros [= <-]. unfold submitted_ids in Hnd. simpl in Hnd.
      by rewrite app_nil_r in Hnd.
    - destruct (handle now ev s0) as [s2|e s2] eqn:Hh; [|discriminate].
      apply IH. apply handle_ids in Hh.
      eapply submseteq_NoDup; [|exact Hnd].
      change (submitted_ids ((now, ev) :: evs))
        with (submitted_ids ([(now, ev)] ++ evs)).
      unfold submitted_ids at 2. rewrite omap_app. fold (submitted_ids [(now, ev)]).
      fold (submitted_ids evs). rewrite (assoc_L (++)).
      by apply submseteq_skips_r. }
  intros Hnd Hrun. eapply Hgen; [|exact Hrun]. done.
Qed.

Lemma no_job_twice_witness :
  NoDup (map job_id (waiting_jobs scenario_ABC ++ running_jobs scenario_ABC)).
Proof.
  apply (no_job_twice 0%float 4 (idle_cluster 4)
           [(0%float, JobSubmission job_A); (1%float, JobSubmission job_B);
            (2%float, JobSubmission job_C)]).
  - vm_compute. repeat constructor; rewrite list_elem_of_In; simpl; lia.
  - vm_compute. reflexivity.
Defined.

(** X13. A submission aborts the run when the controller reports no
    available node: a job that passes admission is appended to the waiting
    queue, the pass that follows asks for the available nodes, gets none and
    raises the assertion failure.  The exception leaves the job at the tail
    of the waiting queue, [simulation_started] set, the running list as it
    was, and [GetAvailableNodes] as the only call made. *)
Theorem submission_aborts_without_nodes {PC} `{PowerController PC}
    (s : PowerControlScheduler PC) job :
  requested_resources job ≤ bs_nb_resources s →
  GetAvailableNodes (power_controller s) = [] →
  ∃ s', onJobSubmission s job = Raises (AssertionError "No available nodes") s' ∧
    waiting_jobs s' = waiting_jobs s ++ [job] ∧ running_jobs s' = running_jobs s ∧
    simulation_started s' = true ∧
    power_controller s' = power_controller s ∧
    calls s' = calls s ++ [pc_GetAvailableNodes].
Proof.
  intros Hfit Ha. unfold onJobSubmission. cbv zeta. simpl bs_nb_resources.
  rewrite bool_decide_false by lia.
  destruct (try_schedule_jobs_cases
              (set_waiting_jobs (waiting_jobs (set_simulation_started true s) ++ [job])
                 (set_simulation_started true s)))
    as [[Hw _]|[(_ & _ & ->)|(_ & Ha' & _)]].
  - simpl in Hw. by destruct (waiting_jobs s).
  - by eexists.
  - done.
Qed.

Lemma submission_aborts_without_nodes_witness :
  let s := init 0 4 (sleeping_cluster 4) in
  ∃ s', onJobSubmission s job_A = Raises (AssertionError "No available nodes") s' ∧
    waiting_jobs s' = waiting_jobs s ++ [job_A] ∧ running_jobs s' = running_jobs s ∧
    simulation_started s' = true ∧
    power_controller s' = power_controller s ∧
    calls s' = calls s ++ [pc_GetAvailableNodes].
Proof.
  apply (submission_aborts_without_nodes (init 0 4 (sleeping_cluster 4)) job_A).
  - simpl. lia.
  - reflexivity.
Defined.

(** ** The periodic loop and the energy meter over a run *)

Section TickFacts.
Context {PC : Type} `{PowerController PC}.
Implicit Type s : PowerControlScheduler PC.

Lemma tick_calls_app cs cs' : tick_calls (cs ++ cs') = tick_calls cs ++ tick_calls cs'.
Proof. apply omap_app. Qed.

Lemma tick_calls_quiet (f : node → Call) l :
  (∀ n, tick_calls [f n] = []) → tick_calls (map f l) = [].
Proof.
  intros Hf. induction l as [|n l IH]; [done|].
  change (map f (n :: l)) with ([f n] ++ map f l).
  by rewrite tick_calls_app, Hf, IH.
Qed.

Lemma settings_meter s s' : settings s' = settings s → meter s' = meter s.
Proof. unfold meter. by intros [= _ _ _ _ _ -> -> -> _]. Qed.

Lemma settings_record_interval s s' :
  settings s' = settings s → record_interval s' = record_interval s.
Proof. by intros [=]. Qed.

Lemma pass_tick_calls q (p : Pass PC) :
  tick_calls (calls (self (foldl schedule_job p q))) = tick_calls (calls (self p)).
Proof.
  destruct (pass_notifications q p) as (adds & -> & _).
  rewrite tick_calls_app, (tick_calls_quiet pc_AddJobToNode) by done.
  by rewrite app_nil_r.
Qed.

Lemma try_schedule_jobs_tick_calls s s' :
  try_schedule_jobs s = Returns s' →
  settings s' = settings s ∧ tick_calls (calls s') = tick_calls (calls s).
Proof.
  destruct (try_schedule_jobs_cases s) as [[Hw ->]|[(_ & _ & ->)|(_ & _ & ->)]].
  - by intros [= <-].
  - discriminate.
  - intros [= <-]. destruct (the_pass_effect s) as (HS & _). split; [exact HS|].
    assert (Hp : tick_calls (calls (self (the_pass s))) = tick_calls (calls s)).
    { unfold the_pass. cbv zeta. rewrite pass_tick_calls. unfold start_pass. simpl.
      rewrite foldl_add_call_calls. simpl.
      rewrite !tick_calls_app, (tick_calls_quiet pc_GetNodeJobCount) by done.
      simpl. by rewrite !app_nil_r. }
    destruct (truthy _); [|done]. simpl. rewrite tick_calls_app, Hp. simpl.
    by rewrite app_nil_r.
Qed.

(** What one handled event adds to the calls of the periodic loop, and what
    it does to the meter. *)
Lemma handle_ticks now ev s s' :
  handle now ev s = Returns s' →
  record_interval s' = record_interval s ∧
  (∃ rearm : bool,
     tick_calls (calls s') =
       tick_calls (calls s) ++
       match ev with
       | RequestedCall =>
           inl now :: (if rearm then [inr (now + record_interval s)%float] else [])
       | _ => []
       end) ∧
  meter s' =
    match ev with
    | ReportEnergyConsumed consumed_energy =>
        (consumed_energy, now,
         if PrimFloat.ltb 0 (last_energy_time s)
         then if PrimFloat.ltb 0 (now - last_energy_time s)
              then ((consumed_energy - last_energy s) / (now - last_energy_time s))%float
              else current_power s
         else current_power s)
    | _ => meter s
    end.
Proof.
  destruct ev as [|job|job|job jobs|ts job msg|machines new_pstate|e| |];
    unfold handle; cbv zeta.
  - rewrite onRequestedCall_cases.
    destruct (recorded_facts (set_bs_time now s))
      as (_ & _ & Hi & _ & _ & _ & pre & Hpre & Hc).
    assert (Hm : meter (recorded (set_bs_time now s)) = meter s).
    { unfold recorded. simpl. by destruct (PrimFloat.leb _ _). }
    assert (Ht : tick_calls (calls (recorded (set_bs_time now s))) =
                 tick_calls (calls s) ++ [inl now]).
    { rewrite Hc. simpl. rewrite !tick_calls_app. simpl.
      apply list_elem_of_In in Hpre. simpl in Hpre.
      by destruct Hpre as [<-|[<-|[]]]. }
    destruct (_ && _); intros [= <-].
    + split; [done|]. split; [exists false; by rewrite Ht|done].
    + split; [done|]. split; [|done]. exists true.
      change (tick_calls
                (calls (recorded (set_bs_time now s)) ++
                 [bs_wake_me_up_at
                    (bs_time (set_bs_time now s) +
                     record_interval (set_bs_time now s))%float]) =
              tick_calls (calls s) ++
              [inl now; inr (now + record_interval s)%float]).
      rewrite tick_calls_app, Ht. simpl. by rewrite <- app_assoc.
  - unfold onJobSubmission. cbv zeta. case_bool_decide.
    + intros [= <-]. split; [done|]. split; [|done]. exists false. simpl.
      rewrite tick_calls_app. simpl. done.
    + intros [HS Ht]%try_schedule_jobs_tick_calls.
      rewrite (settings_record_interval _ _ HS), (settings_meter _ _ HS), Ht.
      split; [done|]. split; [|done]. exists false. simpl. by rewrite app_nil_r.
  - unfold onJobCompletion. cbv zeta.
    set (s1 := if job_in job _ then _ else _).
    destruct (foldl_remove_job_from_node s1 (procset_iter (allocation job)))
      as (HS1 & _ & _ & Hc1).
    intros [HS Ht]%try_schedule_jobs_tick_calls.
    rewrite (settings_record_interval _ _ HS), (settings_meter _ _ HS), Ht.
    rewrite (settings_record_interval _ _ HS1), (settings_meter _ _ HS1), Hc1.
    rewrite tick_calls_app, (tick_calls_quiet pc_RemoveJobFromNode) by done.
    assert (Hs1 : record_interval s1 = record_interval s ∧ meter s1 = meter s ∧
                  calls s1 = calls s) by (unfold s1; by destruct (job_in _ _)).
    destruct Hs1 as (-> & -> & ->).
    split; [done|]. split; [|done]. exists false. by rewrite !app_nil_r.
  - discriminate.
  - intros [= <-]. split; [done|]. split; [|done]. exists false. simpl.
    by rewrite app_nil_r.
  - destruct (onMachinePStateChanged_effect (set_bs_time now s) machines new_pstate)
      as (s2 & Hs2 & HS & _).
    rewrite Hs2. intros [= <-].
    rewrite (settings_record_interval _ _ HS), (settings_meter _ _ HS).
    split; [done|]. split; [|done]. exists false. rewrite app_nil_r.
    unfold onMachinePStateChanged in Hs2. injection Hs2 as <-.
    destruct (onMachinePStateChanged_calls (set_bs_time now s) machines new_pstate)
      as [-> _].
    rewrite tick_calls_app.
    rewrite (tick_calls_quiet (λ m, pc_HandleStateTransitionComplete m new_pstate))
      by done.
    simpl. by rewrite app_nil_r.
  - unfold onReportEnergyConsumed. cbv zeta. intros [= <-]. simpl.
    split; [by repeat destruct (PrimFloat.ltb _ _)|].
    split; [exists false; rewrite app_nil_r; by repeat destruct (PrimFloat.ltb _ _)|].
    unfold meter. simpl. by repeat destruct (PrimFloat.ltb _ _).
  - discriminate.
  - intros [= <-]. split; [done|]. split; [|done]. exists false. by rewrite app_nil_r.
Qed.
End TickFacts.

Section RunTicks.
Context {PC : Type} `{PowerController PC}.
Implicit Type s : PowerControlScheduler PC.

Lemma snapshot_times_app cs cs' :
  snapshot_times (cs ++ cs') = snapshot_times cs ++ snapshot_times cs'.
Proof. unfold snapshot_times. by rewrite tick_calls_app, omap_app. Qed.

Lemma wakeup_times_app cs cs' :
  wakeup_times (cs ++ cs') = wakeup_times cs ++ wakeup_times cs'.
Proof. unfold wakeup_times. by rewrite tick_calls_app, omap_app. Qed.

Lemma run_ticks evs s s' :
  run evs s = Returns s' →
  record_interval s' = record_interval s ∧
  snapshot_times (calls s') = snapshot_times (calls s) ++ tick_times evs ∧
  ∃ w, wakeup_times (calls s') = wakeup_times (calls s) ++ w ∧
       w `sublist_of` map (λ t, (t + record_interval s)%float) (tick_times evs).
Proof.
  revert s. induction evs as [|[now ev] evs IH]; intros s; cbn [run].
  - intros [= <-]. unfold tick_times. simpl. rewrite app_nil_r.
    split_and!; try done. exists []. by rewrite app_nil_r.
  - destruct (handle now ev s) as [s1|e s1] eqn:Hh; [|discriminate].
    intros (-> & Hsnap & w & Hwake & Hsub)%IH.
    apply handle_ticks in Hh as (Hri & [rearm Ht] & _).
    rewrite Hri in *. split; [done|].
    rewrite Hsnap, Hwake. clear Hsnap Hwake.
    assert (Hs1 : snapshot_times (calls s1) =
                  snapshot_times (calls s) ++ tick_times [(now, ev)]).
    { unfold snapshot_times. rewrite Ht. etrans; [apply omap_app|]. f_equal.
      by destruct ev, rearm. }
    assert (Hw1 : ∃ w1, wakeup_times (calls s1) = wakeup_times (calls s) ++ w1 ∧
                        w1 `sublist_of`
                          map (λ t, (t + record_interval s)%float)
                            (tick_times [(now, ev)])).
    { unfold wakeup_times. rewrite Ht. eexists. split; [apply omap_app|].
      destruct ev, rearm; simpl; try done. by apply sublist_cons. }
    destruct Hw1 as (w1 & -> & Hsub1). rewrite Hs1, <- !app_assoc.
    change ((now, ev) :: evs) with ([(now, ev)] ++ evs).
    assert (Happ : tick_times ([(now, ev)] ++ evs) =
                   tick_times [(now, ev)] ++ tick_times evs) by apply omap_app.
    rewrite Happ. split; [done|]. exists (w1 ++ w). split; [done|].
    rewrite map_app. by apply sublist_app.
Qed.

Lemma handle_meter_other now ev s s' :
  handle now ev s = Returns s' →
  (∀ consumed_energy, ev ≠ ReportEnergyConsumed consumed_energy) →
  meter s' = meter s.
Proof.
  intros (_ & _ & Hm)%handle_ticks Hev. rewrite Hm.
  destruct ev; try done. by destruct (Hev consumed_energy).
Qed.

Lemma run_meter_no_report evs s s' :
  run evs s = Returns s' → reports evs = [] → meter s' = meter s.
Proof.
  revert s. induction evs as [|[now ev] evs IH]; intros s; simpl.
  - by intros [= <-].
  - destruct (handle now ev s) as [s1|e s1] eqn:Hh; [|discriminate].
    intros Hrun Hrep.
    assert (Hev : ∀ e, ev ≠ ReportEnergyConsumed e).
    { intros e ->. discriminate Hrep. }
    assert (Hrest : reports evs = []).
    { by destruct ev. }
    by rewrite (IH _ Hrun Hrest), (handle_meter_other _ _ _ _ Hh Hev).
Qed.

Lemma reports_cons now ev evs :
  reports ((now, ev) :: evs) = reports [(now, ev)] ++ reports evs.
Proof. apply (omap_app _ [(now, ev)] evs). Qed.

Lemma run_reading evs s s' :
  run evs s = Returns s' →
  (last_energy_time s', last_energy s') =
    default (last_energy_time s, last_energy s) (last (reports evs)).
Proof.
  revert s. induction evs as [|[now ev] evs IH]; intros s; cbn [run].
  - by intros [= <-].
  - destruct (handle now ev s) as [s1|e s1] eqn:Hh; [|discriminate].
    intros ->%IH. apply handle_ticks in Hh as (_ & _ & Hm).
    rewrite reports_cons. unfold meter in Hm.
    destruct ev; injection Hm as Hle Hlt _; rewrite Hle, Hlt; try done.
    change (reports [(now, ReportEnergyConsumed consumed_energy)])
      with [(now, consumed_energy)].
    destruct (reports evs) as [|r rs] eqn:Hr; [done|].
    change (last ([(now, consumed_energy)] ++ r :: rs)) with (last (r :: rs)).
    destruct (last (r :: rs)) eqn:Hlast; [done|].
    by apply last_None in Hlast.
Qed.

Lemma run_first_report evs s s' (c : float) :
  run evs s = Returns s' →
  last_energy_time s = 0%float → current_power s = c →
  (length (reports evs) ≤ 1)%nat →
  current_power s' = c.
Proof.
  revert s. induction evs as [|[now ev] evs IH]; intros s; cbn [run].
  - by intros [= <-].
  - destruct (handle now ev s) as [s1|e s1] eqn:Hh; [|discriminate].
    intros Hrun Ht Hc Hlen. rewrite reports_cons, length_app in Hlen.
    pose proof Hh as (_ & _ & Hm)%handle_ticks. unfold meter in Hm.
    assert (Hcase : (∃ e, ev = ReportEnergyConsumed e) ∨
                    ∀ e, ev ≠ ReportEnergyConsumed e).
    { destruct ev; try (by right); left; by eexists. }
    destruct Hcase as [[e ->]|Hev].
    + assert (Hnone : reports evs = []).
      { destruct (reports evs); [done|]. unfold reports in Hlen at 1.
        simpl in Hlen. lia. }
      pose proof (run_meter_no_report _ _ _ Hrun Hnone) as Hm'.
      unfold meter in Hm'. injection Hm' as _ _ ->.
      injection Hm as _ _ ->. by rewrite Ht.
    + pose proof (handle_meter_other _ _ _ _ Hh Hev) as Hm'.
      unfold meter in Hm'. injection Hm' as He Ht' Hc'.
      eapply IH; [exact Hrun|congruence|congruence|].
      destruct ev; unfold reports in Hlen at 1; simpl in Hlen; lia.
Qed.
End RunTicks.

(** X15. Over a run that returns from the initial state, the snapshots
    recorded are exactly one for each periodic tick, in order and stamped
    with the time of the tick, and every wake-up ever requested is requested
    by a tick, for 60 time units after it.  No other handler arms the timer;
    in particular a run without a tick requests no wake-up: the periodic
    loop does not start by itself. *)
Theorem timer_follows_ticks {PC} `{PowerController PC} t0 nb (pc : PC) evs s :
  run evs (init t0 nb pc) = Returns s →
  snapshot_times (calls s) = tick_times evs ∧
  wakeup_times (calls s) `sublist_of` map (λ t, (t + 60)%float) (tick_times evs) ∧
  (tick_times evs = [] → ∀ t, bs_wake_me_up_at t ∉ calls s).
Proof.
  intros (_ & Hsnap & w & Hwake & Hsub)%run_ticks. simpl in *.
  split; [done|]. rewrite Hwake. split; [done|].
  intros Hnone t Hin. rewrite Hnone in Hsub. simpl in Hsub.
  apply sublist_nil_r in Hsub as ->.
  assert (Ht : t ∈ wakeup_times (calls s)).
  { clear -Hin. induction (calls s) as [|c cs IH]; [by apply elem_of_nil in Hin|].
    change (c :: cs) with ([c] ++ cs). rewrite wakeup_times_app.
    apply elem_of_cons in Hin as [<-|Hin].
    - apply elem_of_app. left. apply list_elem_of_here.
    - apply elem_of_app. right. by apply IH. }
  rewrite Hwake in Ht. by apply elem_of_nil in Ht.
Qed.

Lemma timer_follows_ticks_witness :
  let evs := [(1%float, JobSubmission job_A); (60%float, RequestedCall);
              (70%float, JobCompletion job_A_placed); (120%float, RequestedCall)] in
  let s := final (run evs (init 0 4 (idle_cluster 4))) in
  snapshot_times (calls s) = tick_times evs ∧
  wakeup_times (calls s) `sublist_of` map (λ t, (t + 60)%float) (tick_times evs) ∧
  (tick_times evs = [] → ∀ t, bs_wake_me_up_at t ∉ calls s).
Proof.
  apply (timer_follows_ticks 0%float 4 (idle_cluster 4)
           [(1%float, JobSubmission job_A); (60%float, RequestedCall);
            (70%float, JobCompletion job_A_placed); (120%float, RequestedCall)]).
  vm_compute. reflexivity.
Defined.

(** X16. Over a run that returns from the initial state, the meter always
    holds the last reading: [last_energy_time] and [last_energy] are the time
    and the energy of the last energy report, or 0 when there was none.
    No handler but [onReportEnergyConsumed] touches the meter, and
    [current_power] is still 0 after the first report, whenever it comes. *)
Theorem meter_follows_reports {PC} `{PowerController PC} t0 nb (pc : PC) evs s :
  run evs (init t0 nb pc) = Returns s →
  (last_energy_time s, last_energy s) =
    default (0%float, 0%float) (last (reports evs)) ∧
  (reports evs = [] → meter s = (0%float, 0%float, 0%float)) ∧
  ((length (reports evs) ≤ 1)%nat → current_power s = 0%float).
Proof.
  intros Hrun. split_and!.
  - by rewrite (run_reading _ _ _ Hrun).
  - intros Hnone. by rewrite (run_meter_no_report _ _ _ Hrun Hnone).
  - intros Hlen. by eapply run_first_report.
Qed.

Lemma meter_follows_reports_witness :
  let evs := [(1%float, JobSubmission job_A); (30%float, ReportEnergyConsumed 300);
              (60%float, RequestedCall)] in
  let s := final (run evs (init 0 4 (idle_cluster 4))) in
  (last_energy_time s, last_energy s) =
    default (0%float, 0%float) (last (reports evs)) ∧
  (reports evs = [] → meter s = (0%float, 0%float, 0%float)) ∧
  ((length (reports evs) ≤ 1)%nat → current_power s = 0%float).
Proof.
  apply (meter_follows_reports 0%float 4 (idle_cluster 4)
           [(1%float, JobSubmission job_A); (30%float, ReportEnergyConsumed 300);
            (60%float, RequestedCall)]).
  vm_compute. reflexivity.
Defined.

(** * Properties of the predictor's time features *)

Lemma get_day_period_range hour : 0 ≤ get_day_period hour < 6.
Proof. unfold get_day_period. repeat case_bool_decide; lia. Qed.

Lemma np_increment_in_range (a : list Z) (i : Z) :
  0 ≤ i < len a → np_increment a i = Some (alter Z.succ (Z.to_nat i) a).
Proof. intros Hi. unfold np_increment. by rewrite bool_decide_true. Qed.

Lemma hours_in_period_snoc k hours h :
  hours_in_period k (hours ++ [h]) =
    hours_in_period k hours + (if bool_decide (get_day_period h = k) then 1 else 0).
Proof.
  unfold hours_in_period, len. rewrite filter_app, length_app.
  rewrite filter_cons, filter_nil. case_bool_decide.
  - rewrite decide_True by done. simpl. lia.
  - rewrite decide_False by done. simpl. lia.
Qed.

Lemma period_counts_spec hours :
  ∃ counts, period_counts hours = Some counts ∧ length counts = 6%nat ∧
    ∀ k : nat, (k < 6)%nat →
      counts !! k = Some (hours_in_period (Z.of_nat k) hours).
Proof.
  unfold period_counts. induction hours as [|h hours IH] using rev_ind.
  - exists (replicate 6 0). split_and!; try done.
    intros k Hk. rewrite lookup_replicate_2 by done. done.
  - destruct IH as (counts & Hc & Hlen & Hk).
    rewrite foldl_app. cbn [foldl]. rewrite Hc. cbn [mbind option_bind].
    pose proof (get_day_period_range h) as Hp.
    rewrite np_increment_in_range by (unfold len; lia).
    eexists. split; [done|]. split; [by rewrite length_alter|].
    intros k Hk6. rewrite hours_in_period_snoc.
    destruct (decide (Z.to_nat (get_day_period h) = k)) as [<-|Hne].
    + rewrite list_lookup_alter_eq, Hk by lia. simpl.
      rewrite bool_decide_true by lia. f_equal; lia.
    + rewrite list_lookup_alter_ne, Hk by done.
      rewrite bool_decide_false by lia. f_equal; lia.
Qed.

(** The result of [argmax_from] on the rest [a] of an array whose part [pre]
    has been scanned, [best] being the first index of the maximum of
    [pre]. *)
Lemma argmax_from_spec (a pre : list Z) (best : nat) (best_val : Z) :
  pre !! best = Some best_val →
  (∀ k y, pre !! k = Some y → y ≤ best_val) →
  (∀ k y, (k < best)%nat → pre !! k = Some y → y < best_val) →
  ∃ v, (pre ++ a) !! argmax_from best best_val (length pre) a = Some v ∧
    (∀ k y, (pre ++ a) !! k = Some y → y ≤ v) ∧
    (∀ k y, (k < argmax_from best best_val (length pre) a)%nat →
            (pre ++ a) !! k = Some y → y < v).
Proof.
  revert pre best best_val.
  induction a as [|x a IH]; intros pre best best_val Hb Hmax Hfirst; simpl.
  - rewrite app_nil_r. by exists best_val.
  - replace (pre ++ x :: a) with ((pre ++ [x]) ++ a) by by rewrite <- app_assoc.
    replace (S (length pre)) with (length (pre ++ [x]))
      by (rewrite length_app; simpl; lia).
    case_bool_decide as Hlt.
    + rewrite length_app. simpl. rewrite Nat.add_1_r.
      replace (S (length pre)) with (length (pre ++ [x]))
        by (rewrite length_app; simpl; lia).
      apply IH.
      * rewrite lookup_app_r by lia. by rewrite Nat.sub_diag.
      * intros k y [[_ Hy]|[_ <-]]%lookup_snoc_Some; [|lia].
        specialize (Hmax k y Hy). lia.
      * intros k y Hk [[_ Hy]|[Hk' _]]%lookup_snoc_Some; [|lia].
        specialize (Hmax k y Hy). lia.
    + apply IH.
      * rewrite lookup_app_l; [done|]. by eapply lookup_lt_Some.
      * intros k y [[_ Hy]|[_ <-]]%lookup_snoc_Some; [by eapply Hmax|lia].
      * intros k y Hk [[_ Hy]|[Hk' _]]%lookup_snoc_Some; [by eapply Hfirst|].
        apply lookup_lt_Some in Hb. lia.
Qed.

Lemma np_argmax_spec (a : list Z) :
  a ≠ [] →
  ∃ m v, np_argmax a = Some m ∧ a !! m = Some v ∧
    (∀ k y, a !! k = Some y → y ≤ v) ∧
    (∀ k y, (k < m)%nat → a !! k = Some y → y < v).
Proof.
  destruct a as [|x a]; [done|]. intros _. simpl.
  destruct (argmax_from_spec a [x] 0 x) as (v & Hv & Hmax & Hfirst).
  - done.
  - intros [|k] y; simpl; [intros [= ->]; lia|]. by rewrite lookup_nil.
  - intros k y Hk. lia.
  - exists (argmax_from 0 x 1 a), v. by split_and!.
Qed.

(** X14. For every list of hours, whatever integers it holds, the counting
    loop of [_create_time_features] indexes its six counters within bounds
    and the most frequent period is found: [main_period] is one of the
    periods 0 to 5, no period holds more of the hours, no earlier period
    holds as many, and when there is at least one hour it is the period of
    one of them.  With no hour at all it is period 0. *)
Theorem main_period_most_frequent (hours : list Z) :
  ∃ m : nat, main_period hours = Some m ∧ (m < 6)%nat ∧
    (∀ k : nat, (k < 6)%nat →
       hours_in_period (Z.of_nat k) hours ≤ hours_in_period (Z.of_nat m) hours) ∧
    (∀ k : nat, (k < m)%nat →
       hours_in_period (Z.of_nat k) hours < hours_in_period (Z.of_nat m) hours) ∧
    (hours ≠ [] → ∃ h, h ∈ hours ∧ get_day_period h = Z.of_nat m) ∧
    (hours = [] → m = 0%nat).
Proof.
  unfold main_period.
  destruct (period_counts_spec hours) as (counts & -> & Hlen & Hk). simpl.
  destruct (np_argmax_spec counts) as (m & v & -> & Hv & Hmax & Hfirst).
  { intros ->. done. }
  assert (Hm : (m < 6)%nat) by (apply lookup_lt_Some in Hv; lia).
  rewrite (Hk m Hm) in Hv. injection Hv as <-.
  exists m. split_and!; try done.
  - intros k Hk6. eapply Hmax. by apply Hk.
  - intros k Hkm. eapply Hfirst; [done|]. apply Hk. lia.
  - intros Hne.
    destruct (decide (0 < hours_in_period (Z.of_nat m) hours)) as [Hpos|Hzero].
    + unfold hours_in_period, len in Hpos.
      destruct (filter (λ h, get_day_period h = Z.of_nat m) hours) as [|h l] eqn:Hf;
        [simpl in Hpos; lia|].
      assert (Hh : h ∈ filter (λ h, get_day_period h = Z.of_nat m) hours)
        by (rewrite Hf; apply list_elem_of_here).
      apply list_elem_of_filter in Hh as [Hp Hin]. by exists h.
    + exfalso. destruct hours as [|h hours]; [done|].
      pose proof (get_day_period_range h) as Hp.
      assert (Hk' : (Z.to_nat (get_day_period h) < 6)%nat) by lia.
      pose proof (Hmax _ _ (Hk _ Hk')) as Hle.
      assert (0 < hours_in_period (Z.of_nat (Z.to_nat (get_day_period h))) (h :: hours)).
      { unfold hours_in_period, len. rewrite filter_cons_True by lia. simpl. lia. }
      lia.
  - intros ->. destruct m as [|m]; [done|]. exfalso.
    assert (H0 : (0 < S m)%nat) by lia.
    pose proof (Hfirst 0%nat _ H0 (Hk 0%nat ltac:(lia))) as Hlt.
    unfold hours_in_period, len in Hlt. simpl in Hlt. lia.
Qed.
